(** * btkbdd: input and HID logic (keyb.c)

    A shallow embedding of [keyb.c]: the key-rollover buffer kept in
    [struct status], the evdev event handler [input_event], the HIDP frame
    interpreter [btooth_command] with [set_leds], the device set-up
    [input_open] and the [session] loop.

    Integers of the C code are [Z]; a [uint8_t] is a [Z] in [0, 256) and
    every store into one is written with its wrap-around [u8].  The array
    [key[6]] is a [list Z] read with [!!] and updated with [<[i:=v]>].
    System calls are not run: what a call returns is an argument of the
    function that makes it, and what a function asks of the system is
    appended to a log of [action]s. *)

From stdpp Require Import base numbers list.

Local Open Scope Z_scope.

(** ** Constants of the headers *)

(** [<linux/input.h>]: event types, LED and key codes, protocol version. *)
Module Linux.
Definition EV_KEY : Z := 0x01.
Definition EV_LED : Z := 0x11.
Definition EV_VERSION : Z := 0x010001.

Definition LED_NUML : Z := 0x00.
Definition LED_CAPSL : Z := 0x01.
Definition LED_SCROLLL : Z := 0x02.
Definition LED_COMPOSE : Z := 0x03.
Definition LED_KANA : Z := 0x04.

Definition KEY_LEFTCTRL : Z := 29.
Definition KEY_LEFTSHIFT : Z := 42.
Definition KEY_RIGHTSHIFT : Z := 54.
Definition KEY_LEFTALT : Z := 56.
Definition KEY_RIGHTCTRL : Z := 97.
Definition KEY_RIGHTALT : Z := 100.

(** [sizeof (struct input_event)]: a 16-byte [struct timeval], two
    [__u16] and one [__s32] on a 64-bit Linux. *)
Definition sizeof_input_event : Z := 24.
End Linux.
Export Linux.

(** [hid.h] is not among the sources.  Its protocol constants are modelled
    from the spec, which names the transaction types (Handshake,
    Set-Protocol, Data) and the handshake results (Successful, Err-Unknown)
    of the Bluetooth HID profile; the numbers are those of the profile, and
    the greeting frames [A1 13 ..] of the spec show Data = [0xa0] with the
    input report type [0x01]. *)
Module Hidp.
(** Modelled from the spec: the part of the header byte that holds the
    transaction type. *)
Definition HIDP_HEADER_TRANS_MASK : Z := 0xf0.
(** Modelled from the spec: the Handshake transaction. *)
Definition HIDP_TRANS_HANDSHAKE : Z := 0x00.
(** Modelled from the spec: the Set-Protocol transaction. *)
Definition HIDP_TRANS_SET_PROTOCOL : Z := 0x70.
(** Modelled from the spec: the Data transaction. *)
Definition HIDP_TRANS_DATA : Z := 0xa0.
(** Modelled from the spec: the handshake result Successful. *)
Definition HIDP_HSHK_SUCCESSFUL : Z := 0x00.
(** Modelled from the spec: the handshake result Err-Unknown. *)
Definition HIDP_HSHK_ERR_UNKNOWN : Z := 0x0e.
(** Modelled from the spec: the input report type of a Data frame. *)
Definition HIDP_DATA_RTYPE_INPUT : Z := 0x01.
(** Modelled from the spec: the well-known PSM of the HIDP control
    channel. *)
Definition L2CAP_PSM_HIDP_CTRL : Z := 0x11.
(** Modelled from the spec: the well-known PSM of the HIDP interrupt
    channel. *)
Definition L2CAP_PSM_HIDP_INTR : Z := 0x13.
End Hidp.
Export Hidp.

(** The LED masks of [hid.h].  The spec gives the LED bitmask byte with
    "bit order: Num, Caps, Scroll, Compose, Kana", and [0x07] as Num, Caps
    and Scroll lit. *)
Module HidLeds.
(** Modelled from the spec: Num Lock is bit 0 of the LED bitmask. *)
Definition HIDP_NUML : Z := 0x01.
(** Modelled from the spec: Caps Lock is bit 1 of the LED bitmask. *)
Definition HIDP_CAPSL : Z := 0x02.
(** Modelled from the spec: Scroll Lock is bit 2 of the LED bitmask. *)
Definition HIDP_SCROLLL : Z := 0x04.
(** Modelled from the spec: Compose is bit 3 of the LED bitmask. *)
Definition HIDP_COMPOSE : Z := 0x08.
(** Modelled from the spec: Kana is bit 4 of the LED bitmask. *)
Definition HIDP_KANA : Z := 0x10.
End HidLeds.
Export HidLeds.

(** What [keyb.c] takes from [hid.h] and [linux2hid.h] and neither the
    sources nor the spec fix: the six modifier masks and the table from
    Linux key codes to HID usage codes.  They are parameters of the
    development; where a property needs something of them it says so. *)
Class hid_tables := HidTables {
  HIDP_LEFTCTRL : Z;
  HIDP_LEFTSHIFT : Z;
  HIDP_LEFTALT : Z;
  HIDP_RIGHTCTRL : Z;
  HIDP_RIGHTSHIFT : Z;
  HIDP_RIGHTALT : Z;
  linux2hid : Z → Z
}.

(** The masks of the USB HID boot keyboard and a few rows of the usage
    table (KEY_A = 30 is usage 4, ...): the instance the examples run on. *)
Definition sample_linux2hid (code : Z) : Z :=
  if bool_decide (code = 30) then 4        (* KEY_A *)
  else if bool_decide (code = 48) then 5   (* KEY_B *)
  else if bool_decide (code = 46) then 6   (* KEY_C *)
  else if bool_decide (code = 32) then 7   (* KEY_D *)
  else if bool_decide (code = 18) then 8   (* KEY_E *)
  else if bool_decide (code = 33) then 9   (* KEY_F *)
  else if bool_decide (code = 34) then 10  (* KEY_G *)
  else 0.

Definition sample_tables : hid_tables :=
  HidTables 0x01 0x02 0x04 0x10 0x20 0x40 sample_linux2hid.

(** ** Data *)

(** A store into a [uint8_t]. *)
Definition u8 (z : Z) : Z := z mod 256.

Definition is_u8 (z : Z) : Prop := 0 ≤ z < 256.

(** [struct key_report]: the packet sent to the host after a key press. *)
Record key_report := KeyReport {
  type : Z;
  report_id : Z;      (* the field [report] of the struct *)
  mods : Z;
  reserved : Z;
  key : list Z        (* [uint8_t key[6]] *)
}.

(** [struct status]: keys pressed and LEDs lit. *)
Record status := Status {
  leds : Z;
  report : key_report
}.

(** The bytes of the packed [struct key_report], as [write] sends them. *)
Definition report_bytes (r : key_report) : list Z :=
  type r :: report_id r :: mods r :: reserved r :: key r.

(** The array has six slots and each is a byte. *)
Definition wf_keys (k : list Z) : Prop :=
  length k = 6%nat ∧ Forall is_u8 k.

(** No empty slot precedes a non-empty one. *)
Definition left_packed (k : list Z) : Prop :=
  ∀ (i j : nat) (y : Z),
    (i < j)%nat → k !! i = Some 0 → k !! j = Some y → y = 0.

(** The invariant of the buffer: six byte slots, left-packed. *)
Definition rollover_inv (k : list Z) : Prop :=
  wf_keys k ∧ left_packed k.

(** The keys held: the non-empty slots, in slot order. *)
Definition held (k : list Z) : list Z := filter (λ x, x ≠ 0) k.

(** [struct input_event], without the time stamp that [keyb.c] never reads
    nor sets. *)
Record input_event_t := InputEvent {
  ev_type : Z;     (* __u16 *)
  ev_code : Z;     (* __u16 *)
  ev_value : Z     (* __s32 *)
}.

(** The failures [keyb.c] reports on [stderr], one per [perror] or
    [fprintf (stderr, ...)] that precedes a failing [return]. *)
Inductive failure :=
  | RemoteReadError        (* "Failure reading from bluetooth socket" *)
  | RemoteDisconnected     (* "Short read. Remote disconnected?" *)
  | InputReadError         (* "Error reading from event device" *)
  | MalformedEventError    (* "Badly sized read from event device." *)
  | SendError              (* "Could not send a packet to the host" *)
  | DeviceOpenError        (* perror (dev) *)
  | VersionQueryError      (* "Could not read input protocol version" *)
  | VersionMismatchError   (* "Bad input subsystem version" *)
  | FeatureQueryError      (* "Could query device for supported features" *)
  | NotAKeyboardError      (* "Device not capable of producing key press event." *)
  | GrabError              (* "Could not grab keyboard for exclusive use" *)
  | AutorepeatConfigError. (* "Could not disable autorepeat" *)

Inductive ioctl_request :=
  | EVIOCGVERSION
  | EVIOCGBIT
  | EVIOCGRAB
  | EVIOCSREP.

(** What the program asks of the system, with what the system answered
    where the call makes a descriptor.  Of the [DBG] output only the
    "Short read" of [btooth_command] is kept, as [RemoteDisconnected]. *)
Inductive action :=
  | Diag (f : failure)
  | OpenDev (ret : Z)                        (* open (dev, O_RDWR) *)
  | Ioctl (fd : Z) (request : ioctl_request)
  | WriteBytes (fd : Z) (bytes : list Z)
  | WriteEvent (fd : Z) (ev : input_event_t)
  | Listen (psm : Z) (ret : Z)               (* l2cap_listen *)
  | Connect (psm : Z) (ret : Z)              (* l2cap_connect *)
  | Accept (sock : Z) (ret : Z)              (* l2cap_accept *)
  | Close (fd : Z)
  | Sleep (seconds : Z).

(** ** The rollover buffer: the loop of [input_event] *)

(** [a[i]] for an index inside the array. *)
Definition byte_at (a : list Z) (i : nat) : Z := default 0 (a !! i).

(** The iterations [i, i + n) of
    [for (i = 0; i < 6; i++) { ... }]; a [break] ends the recursion. *)
Fixpoint update_keys_from (n i : nat) (code value : Z) (k : list Z) : list Z :=
  match n with
  | O => k
  | S n' =>
      (* Remove key if already enabled *)
      let k1 := if bool_decide (byte_at k i = code) then <[i := 0]> k else k in
      (* Add key if it was pushed *)
      if bool_decide (value ≠ 0) && bool_decide (byte_at k1 i = 0)
      then <[i := u8 code]> k1
      else
        (* Shift the rest *)
        let k2 :=
          if bool_decide (i < 5)%nat && bool_decide (byte_at k1 i = 0)
          then <[S i := 0]> (<[i := byte_at k1 (S i)]> k1)
          else k1 in
        update_keys_from n' (S i) code value k2
  end.

(** The whole loop: what a key event with usage code [code] and value
    [value] makes of the six slots. *)
Definition update_keys (code value : Z) (k : list Z) : list Z :=
  update_keys_from 6 0 code value k.

(** The same scan written on the list: [scan code value x rest] is what
    the loop makes of the slots [x :: rest] from the slot of [x] on
    ([scan_loop] below relates the two). *)
Fixpoint scan (code value : Z) (x : Z) (rest : list Z) : list Z :=
  let x1 := if bool_decide (x = code) then 0 else x in
  if bool_decide (value ≠ 0) && bool_decide (x1 = 0) then u8 code :: rest
  else
    match rest with
    | [] => [x1]
    | y :: rest' =>
        if bool_decide (x1 = 0) then y :: scan code value 0 rest'
        else x1 :: scan code value y rest'
    end.

(** ** [input_event]: process an evdev event *)

Section InputEvent.
Context `{hid_tables}.

(** [switch (event.code)]: the mask of a modifier key, [0] otherwise. *)
Definition modifier_of (code : Z) : Z :=
  if bool_decide (code = KEY_LEFTCTRL) then HIDP_LEFTCTRL
  else if bool_decide (code = KEY_LEFTSHIFT) then HIDP_LEFTSHIFT
  else if bool_decide (code = KEY_LEFTALT) then HIDP_LEFTALT
  else if bool_decide (code = KEY_RIGHTCTRL) then HIDP_RIGHTCTRL
  else if bool_decide (code = KEY_RIGHTSHIFT) then HIDP_RIGHTSHIFT
  else if bool_decide (code = KEY_RIGHTALT) then HIDP_RIGHTALT
  else 0.

Definition set_mods (r : key_report) (m : Z) : key_report :=
  KeyReport (type r) (report_id r) m (reserved r) (key r).

Definition set_key (r : key_report) (k : list Z) : key_report :=
  KeyReport (type r) (report_id r) (mods r) (reserved r) k.

(** The update of [status->report] by a key event that passed the
    checks. *)
Definition apply_key_event (ev : input_event_t) (r : key_report) : key_report :=
  let m := modifier_of (ev_code ev) in
  if bool_decide (m ≠ 0) then
    if bool_decide (ev_value ev ≠ 0)
    then set_mods r (u8 (Z.lor (mods r) m))
    else set_mods r (u8 (Z.land (mods r) (Z.lnot m)))
  else
    set_key r (update_keys (linux2hid (ev_code ev)) (ev_value ev) (key r)).

(** [input_event (status, input, ctrl, intr)].  [size] and [ev] are what
    [read (input, &event, sizeof(event))] returned and stored, [wr] is
    what [write (intr, &status->report, sizeof(status->report))] returns
    if the function comes to it.  The result is the return value, the
    status left behind and the log. *)
Definition input_event (st : status) (input ctrl intr : Z)
    (size : Z) (ev : input_event_t) (wr : Z) : Z * status * list action :=
  if bool_decide (size = -1) then (-1, st, [Diag InputReadError])
  else if bool_decide (size = sizeof_input_event) then
    if bool_decide (ev_type ev ≠ EV_KEY) then (0, st, [])
    else if bool_decide (256 ≤ ev_code ev) then (0, st, [])
    else
      let st' := Status (leds st) (apply_key_event ev (report st)) in
      let sent := WriteBytes intr (report_bytes (report st')) in
      if bool_decide (wr ≤ 0) then (-1, st', [sent; Diag SendError])
      else (0, st', [sent])
  else (-1, st, [Diag MalformedEventError]).

(** A key event for a key that is not one of the six modifiers. *)
Definition non_modifier_key_event (ev : input_event_t) : Prop :=
  ev_type ev = EV_KEY ∧ 0 ≤ ev_code ev < 256 ∧ modifier_of (ev_code ev) = 0.

(** The status [input_event] leaves when [read] delivers the whole event
    record [e.1] and the [write] of the report returns [e.2]. *)
Definition after_event (input ctrl intr : Z) (st : status)
    (e : input_event_t * Z) : status :=
  (input_event st input ctrl intr sizeof_input_event e.1 e.2).1.2.

(** The status after each event of a sequence, in order. *)
Fixpoint states_after (input ctrl intr : Z) (st : status)
    (evs : list (input_event_t * Z)) : list status :=
  match evs with
  | [] => []
  | e :: evs' =>
      let st' := after_event input ctrl intr st e in
      st' :: states_after input ctrl intr st' evs'
  end.

(** Every entry of the usage table fits the byte slot it is stored in. *)
Definition byte_table : Prop := ∀ code, is_u8 (linux2hid code).

End InputEvent.

(** ** [set_leds] and [btooth_command] *)

(** [!!(leds & mask)] *)
Definition led_value (leds mask : Z) : Z :=
  if bool_decide (Z.land leds mask ≠ 0) then 1 else 0.

Definition led_event (code value : Z) : input_event_t :=
  InputEvent EV_LED code value.

(** [set_leds (input, leds)]: the return value and the five writes. *)
Definition set_leds (input leds : Z) : Z * list action :=
  (0, [ WriteEvent input (led_event LED_NUML (led_value leds HIDP_NUML));
        WriteEvent input (led_event LED_CAPSL (led_value leds HIDP_CAPSL));
        WriteEvent input (led_event LED_SCROLLL (led_value leds HIDP_SCROLLL));
        WriteEvent input (led_event LED_COMPOSE (led_value leds HIDP_COMPOSE));
        WriteEvent input (led_event LED_KANA (led_value leds HIDP_KANA)) ]).

(** [btooth_command (status, fd, input)].  [size] is what
    [read (fd, &buf, sizeof(buf))] returned and [buf] the buffer it
    filled. *)
Definition btooth_command (st : status) (fd input : Z)
    (size : Z) (buf : list Z) : Z * status * list action :=
  let handshake := HIDP_TRANS_HANDSHAKE in
  if bool_decide (size = -1) then (-1, st, [Diag RemoteReadError])
  else if bool_decide (size = 0) then (-1, st, [Diag RemoteDisconnected])
  else
    let trans := Z.land (byte_at buf 0) HIDP_HEADER_TRANS_MASK in
    if bool_decide (trans = HIDP_TRANS_SET_PROTOCOL) then
      (0, st, [WriteBytes fd [u8 (Z.lor handshake HIDP_HSHK_SUCCESSFUL)]])
    else if bool_decide (trans = HIDP_TRANS_DATA)
            && (bool_decide (size = 3) || bool_decide (size = 2)) then
      (0, st, snd (set_leds input (byte_at buf (Z.to_nat (size - 1)))))
    else
      (0, st, [WriteBytes fd [u8 (Z.lor handshake HIDP_HSHK_ERR_UNKNOWN)]]).

(** The two handshake bytes [btooth_command] replies with. *)
Definition handshake_successful : Z :=
  u8 (Z.lor HIDP_TRANS_HANDSHAKE HIDP_HSHK_SUCCESSFUL).
Definition handshake_err_unknown : Z :=
  u8 (Z.lor HIDP_TRANS_HANDSHAKE HIDP_HSHK_ERR_UNKNOWN).

(** The transaction type of a frame: that of its header byte. *)
Definition trans_of (buf : list Z) : Z :=
  Z.land (byte_at buf 0) HIDP_HEADER_TRANS_MASK.

(** The bytes written back on [fd]: the reply to a frame. *)
Definition reply_bytes (fd : Z) (log : list action) : list Z :=
  flat_map (λ a, match a with
                 | WriteBytes fd' bytes => if bool_decide (fd' = fd) then bytes else []
                 | _ => []
                 end) log.

(** The LED-set requests made to the device, as (LED, value) pairs. *)
Definition led_requests (input : Z) (log : list action) : list (Z * Z) :=
  flat_map (λ a, match a with
                 | WriteEvent fd (InputEvent t code value) =>
                     if bool_decide (fd = input) && bool_decide (t = EV_LED)
                     then [(code, value)] else []
                 | _ => []
                 end) log.

(** ** [input_open]: initialize an evdev device *)

(** What the system answers to the calls of [input_open]. *)
Record open_env := OpenEnv {
  open_ret : Z;        (* open (dev, O_RDWR) *)
  version_ret : Z;     (* ioctl (input, EVIOCGVERSION, &version) *)
  version : Z;
  features_ret : Z;    (* ioctl (input, EVIOCGBIT(0, EV_MAX), &features) *)
  features : Z;
  grab_ret : Z;        (* ioctl (input, EVIOCGRAB, 1) *)
  srep_ret : Z         (* ioctl (input, EVIOCSREP, norepeat) *)
}.

Definition input_open (e : open_env) : Z * list action :=
  let input := open_ret e in
  let l0 := [OpenDev input] in
  if bool_decide (input = -1) then (-1, l0 ++ [Diag DeviceOpenError])
  else
    let l1 := l0 ++ [Ioctl input EVIOCGVERSION] in
    if bool_decide (version_ret e = -1) then (-1, l1 ++ [Diag VersionQueryError])
    else if bool_decide (Z.shiftr (version e) 16 ≠ Z.shiftr EV_VERSION 16)
    then (-1, l1 ++ [Diag VersionMismatchError])
    else
      let l2 := l1 ++ [Ioctl input EVIOCGBIT] in
      if bool_decide (features_ret e = -1) then (-1, l2 ++ [Diag FeatureQueryError])
      else if bool_decide (Z.land (features e) EV_KEY = 0)
      then (-1, l2 ++ [Diag NotAKeyboardError])
      else
        let l3 := l2 ++ [Ioctl input EVIOCGRAB] in
        if bool_decide (grab_ret e = -1) then (-1, l3 ++ [Diag GrabError])
        else
          let l4 := l3 ++ [Ioctl input EVIOCSREP] in
          if bool_decide (srep_ret e = -1) then (-1, l4 ++ [Diag AutorepeatConfigError])
          else (input, l4).

(** The descriptors a log leaves open: made by [open], [l2cap_listen],
    [l2cap_connect] or [l2cap_accept] and not closed since. *)
Fixpoint open_fds (log : list action) (fds : list Z) : list Z :=
  match log with
  | [] => fds
  | a :: log' =>
      open_fds log'
        match a with
        | OpenDev fd | Listen _ fd | Connect _ fd | Accept _ fd =>
            if bool_decide (fd = -1) then fds else fd :: fds
        | Close fd => filter (λ x, x ≠ fd) fds
        | _ => fds
        end
  end.

(** ** [hello] and [session] *)

(** [hello (control)]: the two greeting frames and the delay. *)
Definition hello (control : Z) : list action :=
  [ WriteBytes control [0xa1; 0x13; 0x03];
    WriteBytes control [0xa1; 0x13; 0x02];
    Sleep 1 ].

(** The variables of [session] that the loop changes.  [pf[k].fd] is
    assigned together with the variable it watches, so the five
    descriptors stand for the poll set as well. *)
Record sess := Sess {
  s_status : status;
  input : Z;       (* pf[0].fd *)
  control : Z;     (* pf[1].fd *)
  intr : Z;        (* pf[2].fd *)
  scontrol : Z;    (* pf[3].fd *)
  sintr : Z;       (* pf[4].fd *)
  s_log : list action
}.

Definition with_status (s : sess) (st : status) : sess :=
  Sess st (input s) (control s) (intr s) (scontrol s) (sintr s) (s_log s).
Definition with_control (s : sess) (fd : Z) : sess :=
  Sess (s_status s) (input s) fd (intr s) (scontrol s) (sintr s) (s_log s).
Definition with_intr (s : sess) (fd : Z) : sess :=
  Sess (s_status s) (input s) (control s) fd (scontrol s) (sintr s) (s_log s).
Definition with_scontrol (s : sess) (fd : Z) : sess :=
  Sess (s_status s) (input s) (control s) (intr s) fd (sintr s) (s_log s).
Definition with_sintr (s : sess) (fd : Z) : sess :=
  Sess (s_status s) (input s) (control s) (intr s) (scontrol s) fd (s_log s).
Definition logging (s : sess) (l : list action) : sess :=
  Sess (s_status s) (input s) (control s) (intr s) (scontrol s) (sintr s)
       (s_log s ++ l).

(** One return of [poll (pf, 5, -1)] and what the system answers to the
    calls made while it is served.  [rev_k] is whether [poll] found
    [pf[k]] ready, for a descriptor it watched. *)
Record wakeup := Wakeup {
  poll_ret : Z;
  rev_input : bool;
  rev_control : bool;
  rev_intr : bool;
  rev_scontrol : bool;
  rev_sintr : bool;
  connect_ctrl : Z;            (* l2cap_connect (&src, tgt, L2CAP_PSM_HIDP_CTRL) *)
  connect_intr : Z;            (* l2cap_connect (&src, tgt, L2CAP_PSM_HIDP_INTR) *)
  ev_size : Z;                 (* read (input, &event, sizeof(event)) *)
  ev : input_event_t;
  report_wr : Z;               (* write (intr, &status->report, ...) *)
  ctrl_size : Z;               (* read (control, &buf, sizeof(buf)) *)
  ctrl_buf : list Z;
  intr_size : Z;               (* read (intr, &buf, sizeof(buf)) *)
  intr_buf : list Z;
  accept_ctrl : Z;             (* l2cap_accept (scontrol, tgt) *)
  accept_intr : Z              (* l2cap_accept (sintr, NULL) *)
}.

(** A part of the loop body: whether it left the loop by [break], and the
    variables after it. *)
Definition part := sess → bool * sess.

Definition then_part (p q : part) : part :=
  λ s, let '(brk, s') := p s in if brk then (true, s') else q s'.

Definition when (b : bool) (p : part) : part :=
  λ s, if b then p s else (false, s).

Infix ";;;" := then_part (at level 90, right associativity).

(** A part that leaves the stored LED mask alone. *)
Definition keeps_leds (p : part) : Prop :=
  ∀ s, leds (s_status (p s).2) = leds (s_status s).

Section Session.
Context `{hid_tables}.

(** [tgt_any] is [!bacmp (tgt, BDADDR_ANY)]: [tgt] is only compared
    while [control == -1], which is before any [l2cap_accept] could
    have stored a peer address in it. *)
Variable tgt_any : bool.

(** [if (control == -1) { ... }]: reach out for a host. *)
Definition reach_out (w : wakeup) : part :=
  λ s,
    if bool_decide (control s = -1) then
      if tgt_any then (true, s)
      else
        let s1 := logging (with_control s (connect_ctrl w))
                    [Connect L2CAP_PSM_HIDP_CTRL (connect_ctrl w)] in
        if bool_decide (control s1 = -1) then (true, s1)
        else
          let s2 := logging (with_intr s1 (connect_intr w))
                      [Connect L2CAP_PSM_HIDP_INTR (connect_intr w)] in
          if bool_decide (intr s2 = -1) then (true, s2)
          else (false, logging s2 (hello (control s2)))
    else (false, s).

(** [if (input_event (&status, input, control, intr)) break;] *)
Definition run_input_event (w : wakeup) : part :=
  λ s,
    let '(ret, st, l) :=
      input_event (s_status s) (input s) (control s) (intr s)
                  (ev_size w) (ev w) (report_wr w) in
    (bool_decide (ret ≠ 0), logging (with_status s st) l).

(** [if (btooth_command (&status, fd, input)) break;] *)
Definition run_btooth_command (fd : sess → Z) (size : Z) (buf : list Z) : part :=
  λ s,
    let '(ret, st, l) := btooth_command (s_status s) (fd s) (input s) size buf in
    (bool_decide (ret ≠ 0), logging (with_status s st) l).

(** [if (pf[3].revents) { ... }]: control server activity. *)
Definition accept_control (w : wakeup) : part :=
  λ s,
    let s1 := if bool_decide (control s ≠ -1) then logging s [Close (control s)] else s in
    let s2 := logging (with_control s1 (accept_ctrl w))
                [Accept (scontrol s1) (accept_ctrl w)] in
    if bool_decide (control s2 = -1) then (true, s2)
    else (false, with_scontrol (logging s2 [Close (scontrol s2)]) (-1)).

(** [if (pf[4].revents) { ... }]: interrupt server activity. *)
Definition accept_intr_part (w : wakeup) : part :=
  λ s,
    if bool_decide (control s = -1) then (true, s)
    else
      let s1 := if bool_decide (intr s ≠ -1) then logging s [Close (intr s)] else s in
      let s2 := logging (with_intr s1 (accept_intr w))
                  [Accept (sintr s1) (accept_intr w)] in
      if bool_decide (intr s2 = -1) then (true, s2)
      else
        let s3 := logging s2 (hello (control s2)) in
        (false, with_sintr (logging s3 [Close (sintr s3)]) (-1)).

(** [poll] ignores a negative descriptor and reports nothing for it. *)
Definition ready (flag : bool) (fd : Z) : bool :=
  flag && bool_decide (0 ≤ fd).

(** The body of the [while] loop for one wakeup.  The [revents] are
    those [poll] stored, for the descriptors as they were when it was
    called. *)
Definition loop_body (w : wakeup) : part :=
  λ s,
    (when (ready (rev_input w) (input s)) (reach_out w ;;; run_input_event w) ;;;
     when (ready (rev_control w) (control s))
       (run_btooth_command control (ctrl_size w) (ctrl_buf w)) ;;;
     when (ready (rev_intr w) (intr s))
       (run_btooth_command intr (intr_size w) (intr_buf w)) ;;;
     when (ready (rev_scontrol w) (scontrol s)) (accept_control w) ;;;
     when (ready (rev_sintr w) (sintr s)) (accept_intr_part w)) s.

(** [while (poll (pf, 5, -1) > 0) { ... }] over the wakeups of a run.
    The result says whether the loop was left; it was not when the
    wakeups are used up, the program then waiting in [poll]. *)
Fixpoint main_loop (ws : list wakeup) (s : sess) : bool * sess :=
  match ws with
  | [] => (false, s)
  | w :: ws' =>
      if bool_decide (0 < poll_ret w) then
        let '(brk, s') := loop_body w s in
        if brk then (true, s') else main_loop ws' s'
      else (true, s)
  end.

(** The [close] calls after the loop. *)
Definition cleanup (s : sess) : list action :=
  [Close (input s)]
  ++ (if bool_decide (scontrol s ≠ -1) then [Close (scontrol s)] else [])
  ++ (if bool_decide (sintr s ≠ -1) then [Close (sintr s)] else [])
  ++ (if bool_decide (control s ≠ -1) then [Close (control s)] else [])
  ++ (if bool_decide (intr s ≠ -1) then [Close (intr s)] else []).

(** The keyboard state [session] starts from. *)
Definition initial_status : status :=
  Status 0 (KeyReport (Z.lor HIDP_TRANS_DATA HIDP_DATA_RTYPE_INPUT) 0x01 0 0
                      [0; 0; 0; 0; 0; 0]).


(** [session (device, src, tgt)].  [oe] answers [input_open],
    [listen_intr] and [listen_ctrl] are what the two [l2cap_listen]
    return, [ws] the wakeups.  The result is the return value, if the
    function returns within [ws], the keyboard state and the log. *)
Definition session (oe : open_env) (listen_intr listen_ctrl : Z)
    (ws : list wakeup) : option Z * status * list action :=
  let status := initial_status in
  let '(input, l0) := input_open oe in
  if bool_decide (input = -1) then (Some 0, status, l0)
  else
    let l1 := l0 ++ snd (set_leds input (leds status)) in
    let sintr := listen_intr in
    let l2 := l1 ++ [Listen L2CAP_PSM_HIDP_INTR sintr] in
    if bool_decide (sintr = -1) then (Some 0, status, l2 ++ [Close input])
    else
      let scontrol := listen_ctrl in
      let l3 := l2 ++ [Listen L2CAP_PSM_HIDP_CTRL scontrol] in
      if bool_decide (scontrol = -1)
      then (Some 0, status, l3 ++ [Close input; Close sintr])
      else
        let '(exited, s) :=
          main_loop ws (Sess status input (-1) (-1) scontrol sintr l3) in
        if exited then (Some 1, s_status s, s_log s ++ cleanup s)
        else (None, s_status s, s_log s).

End Session.

(** ** Notions for the further properties *)

(** The scan of a whole buffer. *)
Definition scan_slots (code value : Z) (k : list Z) : list Z :=
  match k with
  | [] => []
  | x :: rest => scan code value x rest
  end.

(** Every step of [input_open] goes well: the device opens, reports the
    major protocol version of [EV_VERSION], has bit 0 of its event types
    set (the bit that [features & EV_KEY] tests), and accepts the grab and
    the autorepeat setting. *)
Definition open_ok (e : open_env) : Prop :=
  open_ret e ≠ -1
  ∧ version_ret e ≠ -1
  ∧ 0x10000 ≤ version e < 0x20000
  ∧ features_ret e ≠ -1
  ∧ Z.testbit (features e) 0 = true
  ∧ grab_ret e ≠ -1
  ∧ srep_ret e ≠ -1.

(** A part of the loop body keeps [I] while the loop goes on, and leaves
    [W] also when it breaks. *)
Definition part_keeps (I W : sess → Prop) (p : part) : Prop :=
  ∀ s, I s → W (p s).2 ∧ ((p s).1 = false → I (p s).2).

(** Every action logged so far satisfies [P]. *)
Definition log_all (P : action → Prop) (s : sess) : Prop :=
  Forall P (s_log s).

(** What [input_event] and [btooth_command] may log. *)
Definition input_event_action (intr : Z) (st' : status) (a : action) : Prop :=
  (∃ f, a = Diag f) ∨ a = WriteBytes intr (report_bytes (report st')).

Definition btooth_command_action (fd input : Z) (a : action) : Prop :=
  (∃ f, a = Diag f)
  ∨ a = WriteBytes fd [handshake_successful]
  ∨ a = WriteBytes fd [handshake_err_unknown]
  ∨ (∃ ev, a = WriteEvent input ev).

(** An action that neither makes nor closes a descriptor. *)
Definition fd_neutral (a : action) : Prop :=
  match a with
  | OpenDev _ | Listen _ _ | Connect _ _ | Accept _ _ | Close _ => False
  | _ => True
  end.

Definition not_connect (a : action) : Prop :=
  match a with
  | Connect _ _ => False
  | _ => True
  end.

(** The descriptors [session] keeps in its variables. *)
Definition held_fds (s : sess) : list Z :=
  [input s; control s; intr s; scontrol s; sintr s].

(** Every descriptor the log leaves open is kept in a variable. *)
Definition fds_inv (s : sess) : Prop :=
  ∀ fd, fd ∈ open_fds (s_log s) [] → fd ∈ held_fds s.

(** While the loop goes on there is no interrupt channel without a
    control channel. *)
Definition fds_running (s : sess) : Prop :=
  fds_inv s ∧ (control s = -1 → intr s = -1).

(** The fixed bytes of the report, its modifier byte and its slots. *)
Definition report_inv (r : key_report) : Prop :=
  type r = 0xa1 ∧ report_id r = 0x01 ∧ reserved r = 0
  ∧ is_u8 (mods r) ∧ rollover_inv (key r).

(** A key report on the wire: ten bytes. *)
Definition key_report_frame (bytes : list Z) : Prop :=
  ∃ m k, bytes = 0xa1 :: 0x01 :: m :: 0 :: k ∧ is_u8 m ∧ rollover_inv k.

(** The byte sequences [session] writes: the two greetings, a handshake,
    or a key report. *)
Definition frame_ok (a : action) : Prop :=
  match a with
  | WriteBytes _ bytes =>
      bytes = [0xa1; 0x13; 0x03] ∨ bytes = [0xa1; 0x13; 0x02]
      ∨ bytes = [handshake_successful] ∨ bytes = [handshake_err_unknown]
      ∨ key_report_frame bytes
  | _ => True
  end.

Definition is_accept_on (sock : Z) (a : action) : bool :=
  match a with
  | Accept s _ => bool_decide (s = sock)
  | _ => false
  end.

(** How often [l2cap_accept] was called on the socket [sock]. *)
Definition accepts_on (sock : Z) (log : list action) : nat :=
  length (List.filter (is_accept_on sock) log).

Section SessionNotions.
Context `{hid_tables}.

(** The report of a session: its fixed bytes, a modifier byte, and slots
    that are left-packed bytes, distinct if the usage table has byte
    entries. *)
Definition status_inv (st : status) : Prop :=
  report_inv (report st) ∧ (byte_table → NoDup (held (key (report st)))).

(** What the session has written and what its report is. *)
Definition wire_inv (s : sess) : Prop :=
  status_inv (s_status s) ∧ log_all frame_ok s.

(** The variables of [session] when it enters the loop. *)
Definition session_start (oe : open_env) (listen_intr listen_ctrl : Z) : sess :=
  Sess initial_status (input_open oe).1 (-1) (-1) listen_ctrl listen_intr
       ((((input_open oe).2
          ++ (set_leds (input_open oe).1 (leds initial_status)).2)
         ++ [Listen L2CAP_PSM_HIDP_INTR listen_intr])
        ++ [Listen L2CAP_PSM_HIDP_CTRL listen_ctrl]).

End SessionNotions.

(** While the loop goes on, a listening socket is either still there and
    was never accepted from, or is retired. *)
Definition accept_inv (lc li : Z) (s : sess) : Prop :=
  (scontrol s = lc ∨ scontrol s = -1)
  ∧ (sintr s = li ∨ sintr s = -1)
  ∧ (accepts_on lc (s_log s)
     + (if bool_decide (scontrol s = lc) then 1 else 0) ≤ 1)%nat
  ∧ (accepts_on li (s_log s)
     + (if bool_decide (sintr s = li) then 1 else 0) ≤ 1)%nat.

Definition accept_once (lc li : Z) (s : sess) : Prop :=
  (accepts_on lc (s_log s) ≤ 1)%nat ∧ (accepts_on li (s_log s) ≤ 1)%nat.

(** * Properties *)

(** ** The examples of the specification *)

Example press_into_empty_buffer :
  update_keys 4 1 [0; 0; 0; 0; 0; 0] = [4; 0; 0; 0; 0; 0].
Proof. reflexivity. Qed.

Example press_again :
  update_keys 4 1 [4; 0; 0; 0; 0; 0] = [4; 0; 0; 0; 0; 0].
Proof. reflexivity. Qed.

Example press_second_key :
  update_keys 5 1 [4; 0; 0; 0; 0; 0] = [4; 5; 0; 0; 0; 0].
Proof. reflexivity. Qed.

Example release_first_key :
  update_keys 4 0 [4; 5; 0; 0; 0; 0] = [5; 0; 0; 0; 0; 0].
Proof. reflexivity. Qed.

Example release_middle_key :
  update_keys 6 0 [4; 5; 6; 7; 8; 9] = [4; 5; 7; 8; 9; 0].
Proof. reflexivity. Qed.

Example press_seventh_key :
  update_keys 10 1 [4; 5; 6; 7; 8; 9] = [4; 5; 6; 7; 8; 9].
Proof. reflexivity. Qed.

(** Left-Ctrl sets its bit and leaves the slots; the release clears it. *)
Example left_ctrl_pressed_and_released :
  let st := Status 0 (KeyReport 0xa1 0x01 0 0 [4; 0; 0; 0; 0; 0]) in
  let st1 := after_event (H := sample_tables) 3 7 8 st
               (InputEvent EV_KEY KEY_LEFTCTRL 1, 10) in
  let st2 := after_event (H := sample_tables) 3 7 8 st1
               (InputEvent EV_KEY KEY_LEFTCTRL 0, 10) in
  report st1 = KeyReport 0xa1 0x01 0x01 0 [4; 0; 0; 0; 0; 0] ∧ st2 = st.
Proof. split; reflexivity. Qed.

(** The LED byte [0x07] lights Num, Caps and Scroll. *)
Example leds_of_0x07 :
  led_requests 3 (set_leds 3 0x07).2
  = [ (LED_NUML, 1); (LED_CAPSL, 1); (LED_SCROLLL, 1); (LED_COMPOSE, 0);
      (LED_KANA, 0) ].
Proof. reflexivity. Qed.

(** An accept-only session in which a key event arrives before any host
    has connected ends at once, with no [l2cap_connect]. *)
Example accept_only_session_ends :
  session (H := sample_tables) true (OpenEnv 3 0 EV_VERSION 0 1 0 0) 4 5
    [ Wakeup 1 true false false false false 7 8
        sizeof_input_event (InputEvent EV_KEY 30 1) 10 0 [] 0 [] (-1) (-1) ]
  = (Some 1, initial_status,
     [ OpenDev 3; Ioctl 3 EVIOCGVERSION; Ioctl 3 EVIOCGBIT; Ioctl 3 EVIOCGRAB;
       Ioctl 3 EVIOCSREP;
       WriteEvent 3 (led_event LED_NUML 0); WriteEvent 3 (led_event LED_CAPSL 0);
       WriteEvent 3 (led_event LED_SCROLLL 0); WriteEvent 3 (led_event LED_COMPOSE 0);
       WriteEvent 3 (led_event LED_KANA 0);
       Listen L2CAP_PSM_HIDP_INTR 4; Listen L2CAP_PSM_HIDP_CTRL 5;
       Close 3; Close 5; Close 4 ]).
Proof. reflexivity. Qed.

(** A decidable proposition that evaluates to true holds. *)
Ltac by_evaluation :=
  match goal with
  | |- ?P => apply (bool_decide_unpack P); vm_compute; exact I
  end.

(** ** The loop and the scan on lists *)

Lemma byte_at_middle (pre : list Z) (x : Z) (rest : list Z) :
  byte_at (pre ++ x :: rest) (length pre) = x.
Proof. unfold byte_at. by rewrite list_lookup_middle. Qed.

Lemma byte_at_next (pre : list Z) (x y : Z) (rest : list Z) :
  byte_at (pre ++ x :: y :: rest) (S (length pre)) = y.
Proof.
  unfold byte_at.
  replace (pre ++ x :: y :: rest) with ((pre ++ [x]) ++ y :: rest)
    by (by rewrite <- app_assoc).
  rewrite list_lookup_middle; [done|].
  rewrite length_app. simpl. lia.
Qed.

Lemma insert_middle (pre : list Z) (x v : Z) (rest : list Z) :
  <[length pre := v]> (pre ++ x :: rest) = pre ++ v :: rest.
Proof.
  rewrite <- (Nat.add_0_r (length pre)). by rewrite insert_app_r.
Qed.

Lemma insert_next (pre : list Z) (x y v : Z) (rest : list Z) :
  <[S (length pre) := v]> (pre ++ x :: y :: rest) = pre ++ x :: v :: rest.
Proof.
  replace (S (length pre)) with (length pre + 1)%nat by lia.
  by rewrite insert_app_r.
Qed.

Lemma update_keys_from_S (n i : nat) (code value : Z) (k : list Z) :
  update_keys_from (S n) i code value k =
    let k1 := if bool_decide (byte_at k i = code) then <[i := 0]> k else k in
    if bool_decide (value ≠ 0) && bool_decide (byte_at k1 i = 0)
    then <[i := u8 code]> k1
    else
      update_keys_from n (S i) code value
        (if bool_decide (i < 5)%nat && bool_decide (byte_at k1 i = 0)
         then <[S i := 0]> (<[i := byte_at k1 (S i)]> k1)
         else k1).
Proof. done. Qed.

(** The loop from slot [length pre] on is the scan of the slots that are
    left. *)
Lemma scan_loop (code value : Z) (rest pre : list Z) (x : Z) :
  length (pre ++ x :: rest) = 6%nat →
  update_keys_from (S (length rest)) (length pre) code value (pre ++ x :: rest)
  = pre ++ scan code value x rest.
Proof.
  revert pre x. induction rest as [|y rest IH]; intros pre x Hlen.
  - rewrite length_app in Hlen. simpl in Hlen.
    cbn [length]. rewrite update_keys_from_S. cbn zeta. cbn [scan].
    rewrite byte_at_middle.
    set (x1 := if bool_decide (x = code) then 0 else x).
    assert ((if bool_decide (x = code)
             then <[length pre := 0]> (pre ++ [x])
             else pre ++ [x]) = pre ++ [x1]) as ->.
    { unfold x1. destruct (bool_decide (x = code)); by rewrite ?insert_middle. }
    rewrite byte_at_middle.
    destruct (bool_decide (value ≠ 0) && bool_decide (x1 = 0));
      [by rewrite insert_middle|].
    by rewrite (bool_decide_eq_false_2 (length pre < 5)%nat) by lia.
  - rewrite length_app in Hlen. simpl in Hlen.
    cbn [length]. rewrite update_keys_from_S. cbn zeta. cbn [scan].
    rewrite byte_at_middle.
    set (x1 := if bool_decide (x = code) then 0 else x).
    assert ((if bool_decide (x = code)
             then <[length pre := 0]> (pre ++ x :: y :: rest)
             else pre ++ x :: y :: rest) = pre ++ x1 :: y :: rest) as ->.
    { unfold x1. destruct (bool_decide (x = code)); by rewrite ?insert_middle. }
    rewrite byte_at_middle.
    destruct (bool_decide (value ≠ 0) && bool_decide (x1 = 0));
      [by rewrite insert_middle|].
    rewrite (bool_decide_eq_true_2 (length pre < 5)%nat) by lia.
    rewrite andb_true_l, byte_at_next.
    destruct (bool_decide (x1 = 0)) eqn:Hx1.
    + rewrite insert_middle, insert_next.
      replace (S (length pre)) with (length (pre ++ [y]))
        by (rewrite length_app; simpl; lia).
      replace (pre ++ y :: 0 :: rest) with ((pre ++ [y]) ++ 0 :: rest)
        by (by rewrite <- app_assoc).
      rewrite IH by (rewrite !length_app; simpl; lia).
      by rewrite <- app_assoc.
    + replace (S (length pre)) with (length (pre ++ [x1]))
        by (rewrite length_app; simpl; lia).
      replace (pre ++ x1 :: y :: rest) with ((pre ++ [x1]) ++ y :: rest)
        by (by rewrite <- app_assoc).
      rewrite IH by (rewrite !length_app; simpl; lia).
      by rewrite <- app_assoc.
Qed.

Lemma update_keys_scan (code value x : Z) (rest : list Z) :
  length (x :: rest) = 6%nat →
  update_keys code value (x :: rest) = scan code value x rest.
Proof.
  intros Hlen. unfold update_keys.
  replace 6%nat with (S (length rest)) by (simpl in Hlen; lia).
  apply (scan_loop code value rest [] x). done.
Qed.

#[local] Arguments update_keys_from : simpl never.

(** ** Left-packed buffers *)

Lemma left_packed_cons (x : Z) (k : list Z) :
  left_packed (x :: k) ↔ (x = 0 → Forall (λ y, y = 0) k) ∧ left_packed k.
Proof.
  unfold left_packed. split.
  - intros Hp. split.
    + intros ->. apply Forall_lookup. intros j y Hy.
      apply (Hp 0%nat (S j) y); [lia|done|done].
    + intros i j y Hij Hi Hj. apply (Hp (S i) (S j) y); [lia|done|done].
  - intros [Hz Hp] i j y Hij Hi Hj.
    destruct j as [|j]; [lia|]. simpl in Hj.
    destruct i as [|i]; simpl in Hi.
    + injection Hi as ->. specialize (Hz eq_refl).
      rewrite Forall_lookup in Hz. by apply (Hz j).
    + apply (Hp i j y); [lia|done|done].
Qed.

Lemma left_packed_zeros (k : list Z) :
  Forall (λ y, y = 0) k → left_packed k.
Proof.
  intros Hz i j y _ _ Hj. rewrite Forall_lookup in Hz. by apply (Hz j).
Qed.

Lemma left_packed_snoc (k : list Z) :
  left_packed k → left_packed (k ++ [0]).
Proof.
  induction k as [|x k IH]; simpl.
  - intros _. apply left_packed_zeros. by repeat constructor.
  - rewrite !left_packed_cons. intros [Hz Hp]. split; [|by apply IH].
    intros Hx. apply Forall_app. split; [by apply Hz|by repeat constructor].
Qed.

Lemma left_packed_delete (i : nat) (k : list Z) :
  left_packed k → left_packed (delete i k).
Proof.
  revert i. induction k as [|x k IH]; intros [|i]; simpl; try done.
  - rewrite left_packed_cons. tauto.
  - rewrite !left_packed_cons. intros [Hz Hp]. split; [|by apply IH].
    intros Hx. by apply Forall_delete, Hz.
Qed.

(** ** What the scan does *)

Section Scan.
Variables code value : Z.

Lemma cleared_hit (x : Z) :
  x = code ∨ x = 0 → (if bool_decide (x = code) then 0 else x) = 0.
Proof.
  intros [->| ->]; [by rewrite bool_decide_eq_true_2|].
  by destruct (bool_decide (0 = code)).
Qed.

Lemma scan_place (x : Z) (rest : list Z) :
  value ≠ 0 → x = code ∨ x = 0 →
  scan code value x rest = u8 code :: rest.
Proof.
  intros Hv Hx. apply cleared_hit in Hx.
  destruct rest; cbn [scan]; rewrite Hx;
    by rewrite !bool_decide_eq_true_2 by done.
Qed.

Lemma scan_skip (x y : Z) (rest : list Z) :
  x ≠ code → x ≠ 0 →
  scan code value x (y :: rest) = x :: scan code value y rest.
Proof.
  intros Hc H0. cbn [scan].
  rewrite (bool_decide_eq_false_2 (x = code)) by done.
  rewrite (bool_decide_eq_false_2 (x = 0)) by done.
  by rewrite andb_false_r.
Qed.

Lemma scan_skip_last (x : Z) :
  x ≠ code → x ≠ 0 → scan code value x [] = [x].
Proof.
  intros Hc H0. cbn [scan].
  rewrite (bool_decide_eq_false_2 (x = code)) by done.
  rewrite (bool_decide_eq_false_2 (x = 0)) by done.
  by rewrite andb_false_r.
Qed.

(** After a pull the scan carries an empty slot to the end. *)
Lemma scan_shift (rest : list Z) :
  value = 0 → scan code value 0 rest = rest ++ [0].
Proof.
  intros ->. induction rest as [|y rest IH]; cbn [scan].
  - rewrite (bool_decide_eq_false_2 (0 ≠ 0)) by lia.
    by destruct (bool_decide (0 = code)).
  - rewrite (bool_decide_eq_false_2 (0 ≠ 0)) by lia. cbn [andb].
    replace (if bool_decide (0 = code) then 0 else 0) with 0
      by (by destruct (bool_decide (0 = code))).
    rewrite bool_decide_eq_true_2 by done. by rewrite IH.
Qed.

Lemma scan_remove (x : Z) (rest : list Z) :
  value = 0 → x = code ∨ x = 0 →
  scan code value x rest = rest ++ [0].
Proof.
  intros Hv Hx. apply cleared_hit in Hx.
  destruct rest as [|y rest]; cbn [scan]; rewrite Hx;
    rewrite (bool_decide_eq_false_2 (value ≠ 0)) by lia; cbn [andb].
  - done.
  - rewrite bool_decide_eq_true_2 by done. by rewrite scan_shift.
Qed.

(** The slots the scan leaves come from the buffer, or are the code
    pressed, or are empty. *)
Lemma elem_of_scan (z x : Z) (rest : list Z) :
  z ∈ scan code value x rest → z ∈ x :: rest ∨ z = u8 code ∨ z = 0.
Proof.
  revert x. induction rest as [|y rest IH]; intros x.
  - cbn [scan].
    destruct (bool_decide (value ≠ 0) && bool_decide (_ = 0)).
    + rewrite list_elem_of_singleton. tauto.
    + destruct (bool_decide (x = code));
        rewrite !list_elem_of_singleton; tauto.
  - cbn [scan].
    destruct (bool_decide (value ≠ 0) && bool_decide (_ = 0)).
    + rewrite !elem_of_cons. tauto.
    + destruct (bool_decide (_ = 0)).
      * rewrite !elem_of_cons. intros [->|Hz]; [tauto|].
        apply IH in Hz. rewrite !elem_of_cons in Hz. tauto.
      * destruct (bool_decide (x = code)).
        -- rewrite !elem_of_cons. intros [->|Hz]; [tauto|].
           apply IH in Hz. rewrite !elem_of_cons in Hz. tauto.
        -- rewrite !elem_of_cons. intros [->|Hz]; [tauto|].
           apply IH in Hz. rewrite !elem_of_cons in Hz. tauto.
Qed.

Lemma length_scan (x : Z) (rest : list Z) :
  length (scan code value x rest) = S (length rest).
Proof.
  revert x. induction rest as [|y rest IH]; intros x; cbn [scan].
  - by destruct (bool_decide (value ≠ 0) && bool_decide (_ = 0)).
  - destruct (bool_decide (value ≠ 0) && bool_decide (_ = 0)); [done|].
    destruct (bool_decide (_ = 0)); simpl; by rewrite IH.
Qed.

End Scan.

(** ** Invariants of the scan *)

Lemma u8_is_u8 (z : Z) : is_u8 (u8 z).
Proof. unfold is_u8, u8. apply Z.mod_pos_bound. lia. Qed.

Lemma u8_id (z : Z) : is_u8 z → u8 z = z.
Proof. unfold is_u8, u8. intros Hz. by apply Z.mod_small. Qed.

Lemma held_zeros (k : list Z) : Forall (λ y, y = 0) k → held k = [].
Proof.
  unfold held. induction 1 as [|x k -> _ IH]; [done|].
  by rewrite filter_cons_False by lia.
Qed.

Lemma held_snoc (k : list Z) : held (k ++ [0]) = held k.
Proof.
  unfold held. rewrite filter_app, filter_cons_False by lia.
  by rewrite filter_nil, app_nil_r.
Qed.

Lemma held_cons_nonzero (x : Z) (k : list Z) :
  x ≠ 0 → held (x :: k) = x :: held k.
Proof. intros Hx. unfold held. by rewrite filter_cons_True. Qed.

Lemma held_distinct_tail (x : Z) (k : list Z) :
  NoDup (held (x :: k)) → NoDup (held k).
Proof.
  unfold held. rewrite filter_cons. destruct (decide (x ≠ 0)); [|done].
  rewrite NoDup_cons. tauto.
Qed.

Lemma held_single_distinct (x : Z) (k : list Z) :
  Forall (λ y, y = 0) k → NoDup (held (x :: k)).
Proof.
  intros Hz. unfold held. rewrite filter_cons.
  fold (held k). rewrite (held_zeros k) by done.
  destruct (decide (x ≠ 0)); [apply NoDup_singleton|apply NoDup_nil_2].
Qed.

Section ScanInvariants.
Variables code value : Z.

Lemma scan_bytes (x : Z) (rest : list Z) :
  Forall is_u8 (x :: rest) → Forall is_u8 (scan code value x rest).
Proof.
  rewrite !Forall_forall. intros Hb z Hz.
  apply elem_of_scan in Hz as [Hz|[->| ->]].
  - by apply Hb.
  - apply u8_is_u8.
  - unfold is_u8. lia.
Qed.

Lemma scan_left_packed (x : Z) (rest : list Z) :
  Forall is_u8 (x :: rest) → left_packed (x :: rest) →
  left_packed (scan code value x rest).
Proof.
  revert x. induction rest as [|y rest IH]; intros x Hb Hp.
  all: destruct (decide (x = code ∨ x = 0)) as [Hhit|Hmiss].
  1, 3: destruct (decide (value = 0)) as [Hv|Hv];
    [ rewrite scan_remove by done; apply left_packed_snoc;
      by apply left_packed_cons in Hp as [_ Hp]
    | rewrite scan_place by done;
      apply left_packed_cons in Hp as [Hz Hp];
      apply left_packed_cons; split; [|done];
      intros Hc; apply Hz; destruct Hhit as [->|Hx]; [|done];
      apply Forall_cons in Hb as [Hb _]; by rewrite u8_id in Hc ].
  - rewrite scan_skip_last by tauto.
    apply left_packed_cons. split; [tauto|done].
  - rewrite scan_skip by tauto.
    apply Forall_cons in Hb as [_ Hb].
    apply left_packed_cons in Hp as [_ Hp].
    apply left_packed_cons. split; [tauto|by apply IH].
Qed.

Lemma scan_distinct (x : Z) (rest : list Z) :
  is_u8 code →
  Forall is_u8 (x :: rest) → left_packed (x :: rest) →
  NoDup (held (x :: rest)) → NoDup (held (scan code value x rest)).
Proof.
  intros Hcode. revert x. induction rest as [|y rest IH]; intros x Hb Hp Hd.
  all: destruct (decide (x = code ∨ x = 0)) as [Hhit|Hmiss].
  1, 3: destruct (decide (value = 0)) as [Hv|Hv];
    [ rewrite scan_remove by done; rewrite held_snoc;
      by apply held_distinct_tail in Hd
    | rewrite scan_place by done; rewrite u8_id by done;
      destruct (decide (x = code)) as [->|Hne]; [done|];
      destruct Hhit as [?| ->]; [done|];
      apply left_packed_cons in Hp as [Hz _];
      by apply held_single_distinct, Hz
    ].
  - rewrite scan_skip_last by tauto. rewrite held_cons_nonzero by tauto.
    apply NoDup_singleton.
  - rewrite scan_skip by tauto.
    rewrite held_cons_nonzero in Hd |- * by tauto.
    apply NoDup_cons in Hd as [Hx Hd].
    apply Forall_cons in Hb as [_ Hb].
    apply left_packed_cons in Hp as [_ Hp].
    apply NoDup_cons. split; [|by apply IH].
    intros Hin. apply list_elem_of_filter in Hin as [_ Hin].
    apply elem_of_scan in Hin as [Hin|[Hin|Hin]].
    + apply Hx. apply list_elem_of_filter. split; [tauto|done].
    + rewrite u8_id in Hin by done. tauto.
    + tauto.
Qed.

End ScanInvariants.

(** ** The buffer under [update_keys] *)

Lemma six_slots (k : list Z) :
  length k = 6%nat → ∃ x rest, k = x :: rest.
Proof. destruct k as [|x rest]; [done|eauto]. Qed.

Lemma length_update_keys (code value : Z) (k : list Z) :
  length k = 6%nat → length (update_keys code value k) = 6%nat.
Proof.
  intros Hlen. destruct (six_slots k Hlen) as (x & rest & ->).
  rewrite update_keys_scan, length_scan by done. done.
Qed.

Lemma update_keys_inv (code value : Z) (k : list Z) :
  rollover_inv k → rollover_inv (update_keys code value k).
Proof.
  intros [[Hlen Hb] Hp]. destruct (six_slots k Hlen) as (x & rest & ->).
  rewrite update_keys_scan by done. repeat split.
  - by rewrite length_scan.
  - by apply scan_bytes.
  - by apply scan_left_packed.
Qed.

Lemma update_keys_distinct (code value : Z) (k : list Z) :
  is_u8 code → rollover_inv k →
  NoDup (held k) → NoDup (held (update_keys code value k)).
Proof.
  intros Hc [[Hlen Hb] Hp] Hd. destruct (six_slots k Hlen) as (x & rest & ->).
  rewrite update_keys_scan by done. by apply scan_distinct.
Qed.

(** ** The buffer under [input_event] *)

Section EventInvariants.
Context `{hid_tables}.
Variables input ctrl intr : Z.

Lemma apply_key_event_inv (ev : input_event_t) (r : key_report) :
  rollover_inv (key r) → rollover_inv (key (apply_key_event ev r)).
Proof.
  intros Hinv. unfold apply_key_event.
  destruct (bool_decide (modifier_of (ev_code ev) ≠ 0)).
  - by destruct (bool_decide (ev_value ev ≠ 0)).
  - by apply update_keys_inv.
Qed.

Lemma apply_key_event_distinct (ev : input_event_t) (r : key_report) :
  byte_table → rollover_inv (key r) →
  NoDup (held (key r)) → NoDup (held (key (apply_key_event ev r))).
Proof.
  intros Ht Hinv Hd. unfold apply_key_event.
  destruct (bool_decide (modifier_of (ev_code ev) ≠ 0)).
  - by destruct (bool_decide (ev_value ev ≠ 0)).
  - by apply update_keys_distinct.
Qed.

(** The report [input_event] leaves is the one it found or the one
    [apply_key_event] makes of it. *)
Lemma input_event_report (st : status) (size : Z) (ev : input_event_t) (wr : Z) :
  let st' := (input_event st input ctrl intr size ev wr).1.2 in
  leds st' = leds st ∧
  (report st' = report st ∨ report st' = apply_key_event ev (report st)).
Proof.
  unfold input_event. repeat case_bool_decide; simpl; auto.
Qed.

Lemma after_event_inv (st : status) (e : input_event_t * Z) :
  rollover_inv (key (report st)) →
  rollover_inv (key (report (after_event input ctrl intr st e))).
Proof.
  intros Hinv. unfold after_event.
  destruct (input_event_report st sizeof_input_event e.1 e.2) as [_ [->| ->]];
    [done|by apply apply_key_event_inv].
Qed.

Lemma after_event_distinct (st : status) (e : input_event_t * Z) :
  byte_table → rollover_inv (key (report st)) →
  NoDup (held (key (report st))) →
  NoDup (held (key (report (after_event input ctrl intr st e)))).
Proof.
  intros Ht Hinv Hd. unfold after_event.
  destruct (input_event_report st sizeof_input_event e.1 e.2) as [_ [->| ->]];
    [done|by apply apply_key_event_distinct].
Qed.

Lemma states_after_inv (evs : list (input_event_t * Z)) (st : status) :
  rollover_inv (key (report st)) →
  Forall (λ st', rollover_inv (key (report st')))
         (states_after input ctrl intr st evs).
Proof.
  revert st. induction evs as [|e evs IH]; intros st Hinv; simpl;
    [constructor|].
  pose proof (after_event_inv st e Hinv). constructor; [done|by apply IH].
Qed.

Lemma states_after_distinct (evs : list (input_event_t * Z)) (st : status) :
  byte_table → rollover_inv (key (report st)) →
  NoDup (held (key (report st))) →
  Forall (λ st', NoDup (held (key (report st'))))
         (states_after input ctrl intr st evs).
Proof.
  intros Ht. revert st.
  induction evs as [|e evs IH]; intros st Hinv Hd; simpl; [constructor|].
  pose proof (after_event_inv st e Hinv).
  pose proof (after_event_distinct st e Ht Hinv Hd).
  constructor; [done|by apply IH].
Qed.

End EventInvariants.

Lemma empty_buffer_inv : rollover_inv [0; 0; 0; 0; 0; 0].
Proof.
  repeat split.
  - repeat constructor; unfold is_u8; lia.
  - apply left_packed_zeros. by repeat constructor.
Qed.

(** C1. Key events applied to a status whose six slots start empty leave,
    after each event, a buffer of six slots that is left-packed: no empty
    slot precedes a non-empty one.  It holds at most six keys, and these are
    pairwise distinct when the usage table has byte entries. *)
Theorem rollover_invariant `{hid_tables} (input ctrl intr : Z)
    (st0 : status) (evs : list (input_event_t * Z)) :
  key (report st0) = [0; 0; 0; 0; 0; 0] →
  Forall (λ e, non_modifier_key_event e.1) evs →
  Forall (λ st, left_packed (key (report st))
                ∧ length (key (report st)) = 6%nat
                ∧ (length (held (key (report st))) ≤ 6)%nat
                ∧ (byte_table → NoDup (held (key (report st)))))
         (states_after input ctrl intr st0 evs).
Proof.
  intros Hempty _.
  assert (rollover_inv (key (report st0))) as Hinv
    by (rewrite Hempty; apply empty_buffer_inv).
  assert (NoDup (held (key (report st0)))) as Hd
    by (rewrite Hempty; apply NoDup_nil_2).
  pose proof (states_after_inv input ctrl intr evs st0 Hinv) as Hall.
  rewrite Forall_forall in Hall |- *. intros st Hst.
  destruct (Hall st Hst) as [[Hlen Hb] Hp]. repeat split; [done|done| |].
  - unfold held. etrans; [apply length_filter|]. by rewrite Hlen.
  - intros Ht.
    pose proof (states_after_distinct input ctrl intr evs st0 Ht Hinv Hd) as Hdis.
    rewrite Forall_forall in Hdis. by apply Hdis.
Qed.

(** The run the examples use: A pressed, B pressed, A released, B pressed
    again, on the sample tables, every report written in full (10 bytes). *)
Lemma rollover_invariant_witness :
  Forall (λ st, left_packed (key (report st))
                ∧ length (key (report st)) = 6%nat
                ∧ (length (held (key (report st))) ≤ 6)%nat
                ∧ (byte_table (H := sample_tables) → NoDup (held (key (report st)))))
         (states_after (H := sample_tables) 3 7 8
            (Status 0 (KeyReport 0xa1 0x01 0 0 [0; 0; 0; 0; 0; 0]))
            [ (InputEvent EV_KEY 30 1, 10); (InputEvent EV_KEY 48 1, 10);
              (InputEvent EV_KEY 30 0, 10); (InputEvent EV_KEY 48 1, 10) ]).
Proof.
  apply (rollover_invariant (H := sample_tables)); [reflexivity|].
  repeat constructor; simpl; (lia || reflexivity).
Defined.

(** ** Pressing a key *)

Section Press.
Variables code value : Z.
Hypothesis pressed : value ≠ 0.

(** In a left-packed buffer that holds [code], the first slot that is
    empty or holds [code] holds [code]. *)
Lemma first_hit_is_code (rest : list Z) (x : Z) :
  left_packed (x :: rest) → code ∈ x :: rest → x = code ∨ x = 0 → x = code.
Proof.
  intros Hp Hin [->| ->]; [done|].
  apply elem_of_cons in Hin as [->|Hin]; [done|].
  apply left_packed_cons in Hp as [Hz _]. specialize (Hz eq_refl).
  rewrite Forall_forall in Hz. symmetry. by apply Hz.
Qed.

Lemma scan_repress (rest : list Z) (x : Z) :
  is_u8 code → left_packed (x :: rest) → code ∈ x :: rest →
  scan code value x rest = x :: rest.
Proof.
  intros Hc. revert x. induction rest as [|y rest IH]; intros x Hp Hin.
  all: destruct (decide (x = code ∨ x = 0)) as [Hhit|Hmiss].
  1, 3: rewrite scan_place by done; rewrite u8_id by done;
    by rewrite (first_hit_is_code _ x Hp Hin Hhit).
  - apply list_elem_of_singleton in Hin. by destruct Hmiss; left.
  - rewrite scan_skip by tauto. f_equal.
    apply left_packed_cons in Hp as [_ Hp].
    apply elem_of_cons in Hin as [Hx|Hin]; [by destruct Hmiss; left|].
    by apply IH.
Qed.

Lemma scan_full (rest : list Z) (x : Z) :
  Forall (λ y, y ≠ 0) (x :: rest) → code ∉ x :: rest →
  scan code value x rest = x :: rest.
Proof.
  revert x. induction rest as [|y rest IH]; intros x Hfull Hnew.
  all: apply Forall_cons in Hfull as [Hx Hfull].
  all: apply not_elem_of_cons in Hnew as [Hne Hnew].
  - by rewrite scan_skip_last.
  - rewrite scan_skip by done. f_equal. by apply IH.
Qed.

End Press.

(** C2. In a left-packed buffer of six byte slots that holds the usage
    code [code] in some slot, a press event for [code] changes no slot. *)
Theorem repress_is_noop (code value : Z) (k : list Z) (i : nat) :
  wf_keys k → left_packed k → k !! i = Some code → value ≠ 0 →
  update_keys code value k = k.
Proof.
  intros [Hlen Hb] Hp Hi Hv. destruct (six_slots k Hlen) as (x & rest & ->).
  rewrite update_keys_scan by done.
  apply scan_repress; [done| |done|].
  - rewrite Forall_lookup in Hb. by apply (Hb i).
  - apply list_elem_of_lookup. eauto.
Qed.

Lemma repress_is_noop_witness :
  update_keys 4 1 [4; 0; 0; 0; 0; 0] = [4; 0; 0; 0; 0; 0].
Proof.
  apply (repress_is_noop 4 1 [4; 0; 0; 0; 0; 0] 0).
  - split; [reflexivity|]. repeat constructor; unfold is_u8; lia.
  - apply left_packed_cons. split; [lia|].
    apply left_packed_zeros. by repeat constructor.
  - reflexivity.
  - lia.
Defined.

(** C3. When the six slots hold six distinct usage codes, the press of a
    key whose usage code is none of them leaves the whole status as it
    was: the slots and the modifier byte.  The scan reports nothing; the
    report is written as after every event, and the return value is that
    of the write: [0] unless the write fails. *)
Theorem seventh_press_dropped `{hid_tables} (st : status)
    (input ctrl intr : Z) (ev : input_event_t) (wr : Z) :
  length (key (report st)) = 6%nat →
  Forall (λ y, y ≠ 0) (key (report st)) →
  NoDup (key (report st)) →
  non_modifier_key_event ev →
  ev_value ev ≠ 0 →
  linux2hid (ev_code ev) ∉ key (report st) →
  input_event st input ctrl intr sizeof_input_event ev wr =
    if bool_decide (wr ≤ 0)
    then (-1, st, [WriteBytes intr (report_bytes (report st)); Diag SendError])
    else (0, st, [WriteBytes intr (report_bytes (report st))]).
Proof.
  intros Hlen Hfull _ (Ht & [_ Hc] & Hm) Hv Hnew.
  assert (apply_key_event ev (report st) = report st) as Hsame.
  { unfold apply_key_event. rewrite Hm.
    rewrite (bool_decide_eq_false_2 (0 ≠ 0)) by lia.
    destruct (six_slots _ Hlen) as (x & rest & Hk).
    rewrite Hk in Hfull, Hnew |- *.
    rewrite update_keys_scan by (by rewrite <- Hk).
    rewrite scan_full by done.
    rewrite <- Hk. by destruct (report st). }
  unfold input_event. rewrite Hsame.
  rewrite (bool_decide_eq_false_2 (sizeof_input_event = -1)) by done.
  rewrite (bool_decide_eq_true_2 (sizeof_input_event = sizeof_input_event)) by done.
  rewrite (bool_decide_eq_false_2 (ev_type ev ≠ EV_KEY)) by tauto.
  rewrite (bool_decide_eq_false_2 (256 ≤ ev_code ev)) by lia.
  by destruct st.
Qed.

Lemma seventh_press_dropped_witness :
  let st := Status 0 (KeyReport 0xa1 0x01 0x02 0 [4; 5; 6; 7; 8; 9]) in
  input_event (H := sample_tables) st 3 7 8 sizeof_input_event
              (InputEvent EV_KEY 34 1) 10
  = (0, st, [WriteBytes 8 [0xa1; 0x01; 0x02; 0; 4; 5; 6; 7; 8; 9]]).
Proof.
  intros st.
  apply (seventh_press_dropped (H := sample_tables) st 3 7 8
           (InputEvent EV_KEY 34 1) 10).
  - reflexivity.
  - repeat constructor; simpl; lia.
  - simpl. by_evaluation.
  - repeat split; simpl; lia.
  - simpl. lia.
  - simpl. by_evaluation.
Defined.

(** ** Releasing a key *)

Lemma zeros_snoc (l : list Z) :
  Forall (λ y, y = 0) l → l ++ [0] = 0 :: l.
Proof. induction 1 as [|x l -> _ IH]; simpl; [done|]. by rewrite IH. Qed.

(** Taking a slot out of a run of empty slots and adding one at the end
    gives the run back. *)
Lemma delete_zeros (l : list Z) (i : nat) :
  Forall (λ y, y = 0) l → (i < length l)%nat → delete i l ++ [0] = l.
Proof.
  intros Hz. revert i. induction Hz as [|x l -> Hz IH]; intros i Hi.
  - simpl in Hi. lia.
  - destruct i as [|i]; simpl.
    + by apply zeros_snoc.
    + f_equal. apply IH. simpl in Hi. lia.
Qed.

Section Release.
Variable code : Z.

(** The release of [code], first held in slot [i], drops that slot and
    closes the gap. *)
Lemma scan_release_first (i : nat) (rest : list Z) (x : Z) :
  left_packed (x :: rest) →
  (x :: rest) !! i = Some code →
  (∀ j, (j < i)%nat → (x :: rest) !! j ≠ Some code) →
  scan code 0 x rest = delete i (x :: rest) ++ [0].
Proof.
  revert rest x. induction i as [|i IH]; intros rest x Hp Hi Hfirst.
  - injection Hi as ->. rewrite scan_remove by auto. done.
  - assert (x ≠ code) as Hne
      by (intros ->; by apply (Hfirst 0%nat); [lia|]).
    apply left_packed_cons in Hp as [Hz Hp].
    assert (x ≠ 0) as Hx.
    { intros ->. specialize (Hz eq_refl). rewrite Forall_lookup in Hz.
      apply Hne. symmetry. by apply (Hz i). }
    destruct rest as [|y rest]; [done|].
    rewrite scan_skip by done. cbn [delete list_delete app].
    f_equal. apply IH; [done|done|].
    intros j Hj. apply (Hfirst (S j)). lia.
Qed.

(** With the keys held distinct, the slot that holds [code] is the one
    the release drops, whichever slot of the buffer it is; for the code 0
    any empty slot will do, the buffer being left as it is. *)
Lemma scan_release_distinct (i : nat) (rest : list Z) (x : Z) :
  left_packed (x :: rest) → NoDup (held (x :: rest)) →
  (x :: rest) !! i = Some code →
  scan code 0 x rest = delete i (x :: rest) ++ [0].
Proof.
  revert rest x. induction i as [|i IH]; intros rest x Hp Hd Hi.
  - injection Hi as ->. rewrite scan_remove by auto. done.
  - simpl in Hi. apply left_packed_cons in Hp as [Hz Hp].
    destruct (decide (x = 0)) as [->|Hx].
    + specialize (Hz eq_refl). rewrite scan_remove by auto.
      cbn [delete list_delete app]. rewrite zeros_snoc by done. f_equal.
      symmetry. apply delete_zeros; [done|]. by eapply lookup_lt_Some.
    + assert (x ≠ code) as Hne.
      { intros ->. rewrite held_cons_nonzero in Hd by done.
        apply NoDup_cons in Hd as [Hnew _]. apply Hnew.
        apply list_elem_of_filter. split; [done|].
        apply list_elem_of_lookup. eauto. }
      destruct rest as [|y rest]; [done|].
      rewrite scan_skip by done. cbn [delete list_delete app].
      f_equal. apply IH; [done| |done].
      by apply held_distinct_tail in Hd.
Qed.

End Release.

(** C4. In a keyboard state as the program keeps it, six slots,
    left-packed, the keys held distinct, that holds the usage code [code]
    in slot [i], a release event for [code] clears that slot and moves
    every later slot forward by one, the last slot becoming empty: the
    slots before [i] stay, the keys still held keep their order, and the
    buffer stays left-packed. *)
Theorem release_compacts (code : Z) (k : list Z) (i : nat) :
  length k = 6%nat → left_packed k → NoDup (held k) →
  k !! i = Some code →
  let k' := update_keys code 0 k in
  k' = delete i k ++ [0]
  ∧ (∀ j, (j < i)%nat → k' !! j = k !! j)
  ∧ (∀ j, (i ≤ j < 5)%nat → k' !! j = k !! S j)
  ∧ k' !! 5%nat = Some 0
  ∧ held k' = held (delete i k)
  ∧ left_packed k'.
Proof.
  intros Hlen Hp Hd Hi k'.
  assert (k' = delete i k ++ [0]) as Hk'.
  { unfold k'. destruct (six_slots k Hlen) as (x & rest & ->).
    rewrite update_keys_scan by done. by apply scan_release_distinct. }
  assert (i < length k)%nat as Hlt by (by eapply lookup_lt_Some).
  assert (length (delete i k) = 5%nat) as Hdel
    by (rewrite length_delete by eauto; lia).
  rewrite Hk'. repeat split.
  - intros j Hj. rewrite lookup_app_l by lia. by rewrite list_lookup_delete_lt.
  - intros j Hj. rewrite lookup_app_l by lia. by rewrite list_lookup_delete_ge by lia.
  - rewrite lookup_app_r by lia. by rewrite Hdel.
  - apply held_snoc.
  - by apply left_packed_snoc, left_packed_delete.
Qed.

Lemma release_compacts_witness :
  let k' := update_keys 4 0 [4; 5; 0; 0; 0; 0] in
  k' = [5; 0; 0; 0; 0] ++ [0]
  ∧ (∀ j, (j < 0)%nat → k' !! j = [4; 5; 0; 0; 0; 0] !! j)
  ∧ (∀ j, (0 ≤ j < 5)%nat → k' !! j = [4; 5; 0; 0; 0; 0] !! S j)
  ∧ k' !! 5%nat = Some 0
  ∧ held k' = held [5; 0; 0; 0; 0]
  ∧ left_packed k'.
Proof.
  apply (release_compacts 4 [4; 5; 0; 0; 0; 0] 0).
  - reflexivity.
  - apply left_packed_cons. split; [lia|].
    apply left_packed_cons. split; [lia|].
    apply left_packed_zeros. by repeat constructor.
  - by_evaluation.
  - reflexivity.
Defined.

(** The same holds of any left-packed buffer for the first slot that
    holds the code, distinct keys or not. *)
Lemma release_removes_first_slot (code : Z) (k : list Z) (i : nat) :
  length k = 6%nat → left_packed k →
  k !! i = Some code →
  (∀ j, (j < i)%nat → k !! j ≠ Some code) →
  update_keys code 0 k = delete i k ++ [0].
Proof.
  intros Hlen Hp Hi Hfirst. destruct (six_slots k Hlen) as (x & rest & ->).
  rewrite update_keys_scan by done. by apply scan_release_first.
Qed.

(** Why the keys held have to be distinct: in a buffer that held a key
    twice, which no session reaches, the release would drop the first of
    the two slots and keep the second. *)
Example release_of_later_duplicate :
  let k := [4; 5; 4; 0; 0; 0] in
  left_packed k ∧ ¬ NoDup (held k) ∧ k !! 2%nat = Some 4
  ∧ update_keys 4 0 k = [5; 4; 0; 0; 0; 0]
  ∧ update_keys 4 0 k = delete 0%nat k ++ [0].
Proof.
  intros k. split_and!.
  - apply left_packed_cons. split; [lia|].
    apply left_packed_cons. split; [lia|].
    apply left_packed_cons. split; [lia|].
    apply left_packed_zeros. by repeat constructor.
  - intros Hd. vm_compute in Hd.
    apply NoDup_cons in Hd as [Hnew _]. apply Hnew.
    rewrite !elem_of_cons. auto.
  - reflexivity.
  - reflexivity.
  - reflexivity.
Qed.

(** ** Reading the event device *)

(** C7, as the code has it.  [input_event] reports [InputReadError]
    exactly when [read] returned -1, and [MalformedEventError] exactly when
    it returned neither -1 nor the size of an event record; both end the
    call with -1 and leave the status alone. *)
Theorem input_read_failures `{hid_tables} (st : status) (input ctrl intr : Z)
    (size : Z) (ev : input_event_t) (wr : Z) :
  let '(ret, st', log) := input_event st input ctrl intr size ev wr in
  (Diag InputReadError ∈ log ↔ size = -1)
  ∧ (Diag MalformedEventError ∈ log ↔ size ≠ -1 ∧ size ≠ sizeof_input_event)
  ∧ (Diag InputReadError ∈ log ∨ Diag MalformedEventError ∈ log →
     ret = -1 ∧ st' = st).
Proof.
  unfold input_event.
  repeat case_bool_decide; rewrite ?elem_of_cons, ?elem_of_nil;
    intuition (congruence || lia).
Qed.

(** C7, as it is stated, fails on a read of size zero: [input_event]
    takes the [default] branch and reports [MalformedEventError]. *)
Lemma zero_sized_read_is_malformed :
  let st := Status 0 (KeyReport 0xa1 0x01 0 0 [0; 0; 0; 0; 0; 0]) in
  0 ≠ sizeof_input_event
  ∧ input_event (H := sample_tables) st 3 7 8 0 (InputEvent 0 0 0) 10
    = (-1, st, [Diag MalformedEventError]).
Proof. done. Qed.

(** ** Frames from the host *)

(** [!!(leds & (1 << n))] is bit [n] of [leds]. *)
Lemma led_value_testbit (b n : Z) :
  0 ≤ n → led_value b (2 ^ n) = Z.b2z (Z.testbit b n).
Proof.
  intros Hn. unfold led_value.
  destruct (Z.testbit b n) eqn:Hbit; case_bool_decide as Hland; simpl; try done.
  - assert (Z.testbit (Z.land b (2 ^ n)) n = true) as Ht
      by (by rewrite Z.land_spec, Hbit, Z.pow2_bits_true).
    by rewrite Hland, Z.bits_0 in Ht.
  - exfalso. apply Hland. apply Z.bits_inj'. intros m Hm.
    rewrite Z.land_spec, Z.bits_0, Z.pow2_bits_eqb by done.
    destruct (Z.eqb_spec n m) as [<-|]; [|by rewrite andb_false_r].
    by rewrite Hbit.
Qed.

(** The five writes of [set_leds], by the bits of the mask. *)
Lemma set_leds_bits (input b : Z) :
  set_leds input b =
    (0, [ WriteEvent input (led_event LED_NUML (Z.b2z (Z.testbit b 0)));
          WriteEvent input (led_event LED_CAPSL (Z.b2z (Z.testbit b 1)));
          WriteEvent input (led_event LED_SCROLLL (Z.b2z (Z.testbit b 2)));
          WriteEvent input (led_event LED_COMPOSE (Z.b2z (Z.testbit b 3)));
          WriteEvent input (led_event LED_KANA (Z.b2z (Z.testbit b 4))) ]).
Proof.
  unfold set_leds.
  rewrite <- !led_value_testbit by lia. done.
Qed.

(** C5. A Data frame of 2 or 3 bytes with final byte [b] makes
    [btooth_command] issue five LED writes to the input device and nothing
    else: Num, Caps, Scroll, Compose, Kana in this order, each with the
    value of its bit of [b], whatever the status holds.  No byte is written
    back on [fd]. *)
Theorem led_fan_out (st : status) (fd input : Z) (size : Z) (buf : list Z) :
  size = 2 ∨ size = 3 →
  trans_of buf = HIDP_TRANS_DATA →
  let b := byte_at buf (Z.to_nat (size - 1)) in
  let log := (btooth_command st fd input size buf).2 in
  log = [ WriteEvent input (led_event LED_NUML (Z.b2z (Z.testbit b 0)));
          WriteEvent input (led_event LED_CAPSL (Z.b2z (Z.testbit b 1)));
          WriteEvent input (led_event LED_SCROLLL (Z.b2z (Z.testbit b 2)));
          WriteEvent input (led_event LED_COMPOSE (Z.b2z (Z.testbit b 3)));
          WriteEvent input (led_event LED_KANA (Z.b2z (Z.testbit b 4))) ]
  ∧ led_requests input log =
      [ (LED_NUML, Z.b2z (Z.testbit b 0)); (LED_CAPSL, Z.b2z (Z.testbit b 1));
        (LED_SCROLLL, Z.b2z (Z.testbit b 2)); (LED_COMPOSE, Z.b2z (Z.testbit b 3));
        (LED_KANA, Z.b2z (Z.testbit b 4)) ]
  ∧ reply_bytes fd log = [].
Proof.
  intros Hsize Htrans b log.
  assert (log = (set_leds input b).2) as ->.
  { unfold log, btooth_command. fold (trans_of buf). rewrite Htrans.
    rewrite (bool_decide_eq_false_2 (size = -1)) by lia.
    rewrite (bool_decide_eq_false_2 (size = 0)) by lia.
    rewrite (bool_decide_eq_false_2 (HIDP_TRANS_DATA = HIDP_TRANS_SET_PROTOCOL))
      by done.
    rewrite (bool_decide_eq_true_2 (HIDP_TRANS_DATA = HIDP_TRANS_DATA)) by done.
    destruct Hsize as [-> | ->]; done. }
  rewrite set_leds_bits. split_and!; [done| |done].
  unfold led_requests. simpl.
  by rewrite !(bool_decide_eq_true_2 (input = input)) by done.
Qed.

Lemma led_fan_out_witness :
  let log := (btooth_command (Status 0 (KeyReport 0xa1 0x01 0 0 [0; 0; 0; 0; 0; 0]))
                7 3 3 [0xa2; 0x01; 0x07]).2 in
  log = [ WriteEvent 3 (led_event LED_NUML 1); WriteEvent 3 (led_event LED_CAPSL 1);
          WriteEvent 3 (led_event LED_SCROLLL 1); WriteEvent 3 (led_event LED_COMPOSE 0);
          WriteEvent 3 (led_event LED_KANA 0) ]
  ∧ led_requests 3 log =
      [ (LED_NUML, 1); (LED_CAPSL, 1); (LED_SCROLLL, 1); (LED_COMPOSE, 0);
        (LED_KANA, 0) ]
  ∧ reply_bytes 7 log = [].
Proof.
  apply (led_fan_out (Status 0 (KeyReport 0xa1 0x01 0 0 [0; 0; 0; 0; 0; 0]))
           7 3 3 [0xa2; 0x01; 0x07]).
  - right. reflexivity.
  - reflexivity.
Defined.

Lemma reply_bytes_single (fd x : Z) :
  reply_bytes fd [WriteBytes fd [x]] = [x].
Proof.
  unfold reply_bytes. simpl. by rewrite bool_decide_eq_true_2 by done.
Qed.

(** C6. On a read of positive size [btooth_command] never fails, and:
    a Set-Protocol frame, whatever its parameter, is answered with one
    byte, the successful handshake; a frame that is neither Set-Protocol
    nor Data, or a Data frame of a length other than 2 and 3, is answered
    with one byte, the Err-Unknown handshake, and the call returns 0; a
    Data frame of 2 or 3 bytes is answered with no byte. *)
Theorem handshake_replies (st : status) (fd input : Z) (size : Z) (buf : list Z) :
  0 < size →
  let r := btooth_command st fd input size buf in
  (trans_of buf = HIDP_TRANS_SET_PROTOCOL →
     r = (0, st, [WriteBytes fd [handshake_successful]])
     ∧ reply_bytes fd r.2 = [handshake_successful])
  ∧ ((trans_of buf ≠ HIDP_TRANS_SET_PROTOCOL ∧ trans_of buf ≠ HIDP_TRANS_DATA)
     ∨ (trans_of buf = HIDP_TRANS_DATA ∧ size ≠ 2 ∧ size ≠ 3) →
     r = (0, st, [WriteBytes fd [handshake_err_unknown]])
     ∧ reply_bytes fd r.2 = [handshake_err_unknown])
  ∧ (trans_of buf = HIDP_TRANS_DATA ∧ (size = 2 ∨ size = 3) →
     r.1.1 = 0 ∧ reply_bytes fd r.2 = []).
Proof.
  intros Hsize r.
  assert (r = if bool_decide (trans_of buf = HIDP_TRANS_SET_PROTOCOL)
              then (0, st, [WriteBytes fd [handshake_successful]])
              else if bool_decide (trans_of buf = HIDP_TRANS_DATA)
                      && (bool_decide (size = 3) || bool_decide (size = 2))
              then (0, st, (set_leds input (byte_at buf (Z.to_nat (size - 1)))).2)
              else (0, st, [WriteBytes fd [handshake_err_unknown]])) as ->.
  { unfold r, btooth_command. fold (trans_of buf).
    rewrite (bool_decide_eq_false_2 (size = -1)) by lia.
    by rewrite (bool_decide_eq_false_2 (size = 0)) by lia. }
  split_and!.
  - intros Ht. rewrite bool_decide_eq_true_2 by done.
    split; [done|apply reply_bytes_single].
  - intros [[Hs Hd]|(Hd & H2 & H3)].
    + rewrite !bool_decide_eq_false_2 by done.
      split; [done|apply reply_bytes_single].
    + rewrite (bool_decide_eq_false_2 (trans_of buf = HIDP_TRANS_SET_PROTOCOL))
        by (by rewrite Hd).
      rewrite (bool_decide_eq_false_2 (size = 3)) by done.
      rewrite (bool_decide_eq_false_2 (size = 2)) by done.
      rewrite andb_false_r.
      split; [done|apply reply_bytes_single].
  - intros [Hd Hs].
    rewrite (bool_decide_eq_false_2 (trans_of buf = HIDP_TRANS_SET_PROTOCOL))
      by (by rewrite Hd).
    rewrite (bool_decide_eq_true_2 (trans_of buf = HIDP_TRANS_DATA)) by done.
    assert (bool_decide (size = 3) || bool_decide (size = 2) = true) as ->.
    { destruct Hs as [-> | ->]; done. }
    done.
Qed.

Lemma handshake_replies_witness :
  let r := btooth_command (Status 0 (KeyReport 0xa1 0x01 0 0 [0; 0; 0; 0; 0; 0]))
             7 3 2 [0x71; 0x00] in
  r = (0, Status 0 (KeyReport 0xa1 0x01 0 0 [0; 0; 0; 0; 0; 0]),
       [WriteBytes 7 [handshake_successful]])
  ∧ reply_bytes 7 r.2 = [handshake_successful].
Proof.
  refine (proj1 (handshake_replies
                   (Status 0 (KeyReport 0xa1 0x01 0 0 [0; 0; 0; 0; 0; 0]))
                   7 3 2 [0x71; 0x00] _) _).
  - lia.
  - reflexivity.
Defined.

(** ** Opening the device *)

(** [input_open] returns what [open] returned, or -1. *)
Lemma input_open_ret (e : open_env) :
  (input_open e).1 = open_ret e ∨ (input_open e).1 = -1.
Proof. unfold input_open. repeat case_bool_decide; simpl; auto. Qed.

(** [input_open] closes nothing. *)
Lemma input_open_no_close (e : open_env) (fd : Z) :
  Close fd ∉ (input_open e).2.
Proof.
  unfold input_open. repeat case_bool_decide; simpl;
    rewrite ?elem_of_cons, ?elem_of_nil; intuition discriminate.
Qed.

Lemma open_fds_no_close (log : list action) (fds : list Z) (fd : Z) :
  (∀ x, Close x ∉ log) → fd ∈ fds → fd ∈ open_fds log fds.
Proof.
  revert fds. induction log as [|a log IH]; intros fds Hnc Hin; [done|].
  simpl. apply IH.
  - intros x Hx. apply (Hnc x). by right.
  - destruct a; try done; try (case_bool_decide; [done|by right]).
    exfalso. apply (Hnc fd0). by left.
Qed.

(** C8 fails on the code.  Whenever [open] succeeds and [input_open] then
    fails, be it on the version, the features, the grab or the autorepeat,
    the log of [input_open] has no [close] and the descriptor is still
    open when -1 is returned. *)
Theorem input_open_failure_leaks (e : open_env) :
  open_ret e ≠ -1 →
  (input_open e).1 = -1 →
  (∀ fd, Close fd ∉ (input_open e).2)
  ∧ open_ret e ∈ open_fds (input_open e).2 [].
Proof.
  intros Hopen Hfail. split; [intros fd; apply input_open_no_close|].
  assert (∃ log, (input_open e).2 = OpenDev (open_ret e) :: log
                 ∧ ∀ x, Close x ∉ log) as (log & Hlog & Hnc).
  { pose proof (input_open_no_close e) as Hnc. revert Hnc.
    unfold input_open. repeat case_bool_decide; simpl; intros Hnc;
      (eexists; split; [reflexivity|]);
      intros x Hx; apply (Hnc x); by right. }
  rewrite Hlog. simpl. rewrite bool_decide_eq_false_2 by done.
  apply open_fds_no_close; [done|by left].
Qed.

(** The autorepeat request is refused on descriptor 3. *)
Lemma input_open_failure_leaks_witness :
  (∀ fd, Close fd ∉ (input_open (OpenEnv 3 0 EV_VERSION 0 1 0 (-1))).2)
  ∧ 3 ∈ open_fds (input_open (OpenEnv 3 0 EV_VERSION 0 1 0 (-1))).2 [].
Proof.
  apply (input_open_failure_leaks (OpenEnv 3 0 EV_VERSION 0 1 0 (-1))).
  - simpl. lia.
  - reflexivity.
Defined.

Example input_open_autorepeat_refused :
  input_open (OpenEnv 3 0 EV_VERSION 0 1 0 (-1))
  = (-1, [ OpenDev 3; Ioctl 3 EVIOCGVERSION; Ioctl 3 EVIOCGBIT;
           Ioctl 3 EVIOCGRAB; Ioctl 3 EVIOCSREP; Diag AutorepeatConfigError ]).
Proof. reflexivity. Qed.

(** ** The session *)

(** [btooth_command] hands the status back as it got it. *)
Lemma btooth_command_status (st : status) (fd input size : Z) (buf : list Z) :
  (btooth_command st fd input size buf).1.2 = st.
Proof. unfold btooth_command. by repeat case_match. Qed.

Section SessionProofs.
Context `{hid_tables}.
Variable tgt_any : bool.

Lemma then_part_keeps_leds (p q : part) :
  keeps_leds p → keeps_leds q → keeps_leds (p ;;; q).
Proof.
  intros Hp Hq s. unfold then_part.
  specialize (Hp s). destruct (p s) as [[] s']; simpl in *; [done|].
  by rewrite Hq.
Qed.

Lemma when_keeps_leds (b : bool) (p : part) :
  keeps_leds p → keeps_leds (when b p).
Proof. intros Hp s. unfold when. destruct b; [apply Hp|done]. Qed.

Lemma reach_out_keeps_leds (w : wakeup) : keeps_leds (reach_out tgt_any w).
Proof. intros s. unfold reach_out. by repeat case_match. Qed.

Lemma run_input_event_keeps_leds (w : wakeup) :
  keeps_leds (run_input_event w).
Proof.
  intros s. unfold run_input_event.
  pose proof (input_event_report (input s) (control s) (intr s) (s_status s)
                (ev_size w) (ev w) (report_wr w)) as [Hl _].
  by destruct (input_event _ _ _ _ _ _ _) as [[ret st] l].
Qed.

Lemma run_btooth_command_keeps_leds (fd : sess → Z) (size : Z) (buf : list Z) :
  keeps_leds (run_btooth_command fd size buf).
Proof.
  intros s. unfold run_btooth_command.
  pose proof (btooth_command_status (s_status s) (fd s) (input s) size buf) as Hst.
  destruct (btooth_command _ _ _ _ _) as [[ret st] l]. simpl in *. by subst.
Qed.

Lemma accept_control_keeps_leds (w : wakeup) : keeps_leds (accept_control w).
Proof. intros s. unfold accept_control. by repeat case_match. Qed.

Lemma accept_intr_part_keeps_leds (w : wakeup) :
  keeps_leds (accept_intr_part w).
Proof. intros s. unfold accept_intr_part. by repeat case_match. Qed.

Lemma loop_body_keeps_leds (w : wakeup) : keeps_leds (loop_body tgt_any w).
Proof.
  intros s. unfold loop_body.
  repeat (apply then_part_keeps_leds || apply when_keeps_leds).
  - apply reach_out_keeps_leds.
  - apply run_input_event_keeps_leds.
  - apply run_btooth_command_keeps_leds.
  - apply run_btooth_command_keeps_leds.
  - apply accept_control_keeps_leds.
  - apply accept_intr_part_keeps_leds.
Qed.

Lemma main_loop_keeps_leds (ws : list wakeup) :
  keeps_leds (main_loop tgt_any ws).
Proof.
  induction ws as [|w ws IH]; intros s; simpl; [done|].
  case_bool_decide; [|done].
  pose proof (loop_body_keeps_leds w s) as Hb.
  destruct (loop_body tgt_any w s) as [[] s']; simpl in *; [done|].
  by rewrite IH.
Qed.



End SessionProofs.



(** C10. [btooth_command] hands back the status it was given, modifier
    byte and slots included, whatever the frame; and the LED mask stored
    in the status is 0 at every point of every session. *)
Theorem frames_keep_status `{hid_tables} :
  (∀ (st : status) (fd input size : Z) (buf : list Z),
     (btooth_command st fd input size buf).1.2 = st)
  ∧ (∀ (tgt_any : bool) (oe : open_env) (listen_intr listen_ctrl : Z)
       (ws : list wakeup),
       leds (session tgt_any oe listen_intr listen_ctrl ws).1.2 = 0).
Proof.
  split; [apply btooth_command_status|].
  intros tgt_any oe listen_intr listen_ctrl ws. unfold session.
  destruct (input_open oe) as [input0 l0].
  repeat (case_bool_decide; [done|]).
  match goal with
  | |- context [main_loop tgt_any ws ?s0] =>
      pose proof (main_loop_keeps_leds tgt_any ws s0) as Hk;
      destruct (main_loop tgt_any ws s0) as [[] s]
  end; simpl in *; by rewrite Hk.
Qed.

(** ** The other failures of the set-up *)

(** When a [l2cap_listen] fails, [session] closes what it had opened
    before it returns 0. *)
Lemma session_listen_failure_releases `{hid_tables} (tgt_any : bool)
    (oe : open_env) (listen_intr listen_ctrl : Z) (ws : list wakeup) :
  (input_open oe).1 ≠ -1 →
  listen_intr = -1 ∨ listen_ctrl = -1 →
  let r := session tgt_any oe listen_intr listen_ctrl ws in
  r.1.1 = Some 0 ∧ Close (input_open oe).1 ∈ r.2.
Proof.
  intros Hopen Hl. unfold session.
  destruct (input_open oe) as [input0 l0]. simpl in *.
  rewrite (bool_decide_eq_false_2 (input0 = -1)) by done.
  case_bool_decide; simpl.
  - split; [done|]. rewrite !elem_of_app, !elem_of_cons. auto.
  - rewrite bool_decide_eq_true_2 by tauto. simpl.
    split; [done|]. rewrite !elem_of_app, !elem_of_cons. auto.
Qed.

(** When [input_open] fails, [session] returns 0 with the log of
    [input_open]: nothing is closed there either. *)
Lemma session_open_failure `{hid_tables} (tgt_any : bool)
    (oe : open_env) (listen_intr listen_ctrl : Z) (ws : list wakeup) :
  (input_open oe).1 = -1 →
  session tgt_any oe listen_intr listen_ctrl ws
  = (Some 0, initial_status, (input_open oe).2).
Proof.
  intros Hfail. unfold session.
  destruct (input_open oe) as [input0 l0]. simpl in *.
  by rewrite bool_decide_eq_true_2.
Qed.

(** * Further properties *)

(** ** More on the rollover buffer *)

Lemma update_keys_scan_slots (code value : Z) (k : list Z) :
  length k = 6%nat → update_keys code value k = scan_slots code value k.
Proof.
  intros Hlen. destruct (six_slots k Hlen) as (x & rest & ->).
  by apply update_keys_scan.
Qed.

Lemma scan_nonempty (code value x : Z) (rest : list Z) :
  ∃ x' rest', scan code value x rest = x' :: rest'.
Proof.
  pose proof (length_scan code value x rest) as Hlen.
  destruct (scan code value x rest) as [|x' rest']; [done|eauto].
Qed.

Lemma first_empty_slot (k : list Z) :
  0 ∈ k → ∃ i, k !! i = Some 0 ∧ ∀ j, (j < i)%nat → k !! j ≠ Some 0.
Proof.
  induction k as [|x k IH]; [by intros ?%elem_of_nil|].
  intros Hin. destruct (decide (x = 0)) as [->|Hx].
  - exists 0%nat. split; [done|]. intros j Hj. lia.
  - apply elem_of_cons in Hin as [?|Hin]; [done|].
    destruct (IH Hin) as (i & Hi & Hfirst). exists (S i). split; [done|].
    intros [|j] Hj; simpl; [congruence|]. apply Hfirst. lia.
Qed.

Section PressNew.
Variables code value : Z.
Hypothesis pressed : value ≠ 0.

(** The press of a code that no slot holds goes to the first empty
    slot. *)
Lemma scan_press_new (i : nat) (rest : list Z) (x : Z) :
  code ∉ x :: rest →
  (x :: rest) !! i = Some 0 →
  (∀ j, (j < i)%nat → (x :: rest) !! j ≠ Some 0) →
  scan code value x rest = <[i := u8 code]> (x :: rest).
Proof.
  revert rest x. induction i as [|i IH]; intros rest x Hnew Hi Hfirst.
  - injection Hi as ->. by rewrite scan_place by auto.
  - apply not_elem_of_cons in Hnew as [Hne Hnew].
    assert (x ≠ 0) as Hx by (intros ->; by apply (Hfirst 0%nat); [lia|]).
    destruct rest as [|y rest]; [done|].
    rewrite scan_skip by done. simpl. f_equal.
    apply IH; [done|done|]. intros j Hj. apply (Hfirst (S j)). lia.
Qed.

(** With an empty slot left, the new key comes last among the keys held. *)
Lemma scan_press_appends (rest : list Z) (x : Z) :
  is_u8 code → code ≠ 0 →
  left_packed (x :: rest) → code ∉ x :: rest → 0 ∈ x :: rest →
  held (scan code value x rest) = held (x :: rest) ++ [code].
Proof.
  intros Hc Hc0. revert x. induction rest as [|y rest IH]; intros x Hp Hnew Hz.
  all: apply not_elem_of_cons in Hnew as [Hne Hnew].
  all: destruct (decide (x = 0)) as [->|Hx].
  - rewrite scan_place by auto. rewrite u8_id by done.
    unfold held. rewrite filter_cons_True by done.
    by rewrite filter_cons_False by lia.
  - apply list_elem_of_singleton in Hz. done.
  - rewrite scan_place by auto. rewrite u8_id by done.
    apply left_packed_cons in Hp as [Hzeros _]. specialize (Hzeros eq_refl).
    rewrite held_cons_nonzero by done.
    rewrite (held_zeros (y :: rest)) by done.
    unfold held at 1. rewrite filter_cons_False by lia.
    fold (held (y :: rest)). by rewrite (held_zeros (y :: rest)) by done.
  - rewrite scan_skip by done. rewrite !held_cons_nonzero by done.
    simpl. f_equal.
    apply left_packed_cons in Hp as [_ Hp].
    apply elem_of_cons in Hz as [?|Hz]; [done|]. by apply IH.
Qed.

End PressNew.

Section ReleaseMore.
Variable code : Z.

(** The release of a code that is not among the keys held. *)
Lemma scan_release_not_held (rest : list Z) (x : Z) :
  left_packed (x :: rest) → code ∉ held (x :: rest) →
  scan code 0 x rest = x :: rest.
Proof.
  revert x. induction rest as [|y rest IH]; intros x Hp Hnh.
  all: destruct (decide (x = 0)) as [->|Hx].
  - by rewrite scan_remove by auto.
  - rewrite held_cons_nonzero in Hnh by done.
    apply not_elem_of_cons in Hnh as [Hne _]. by rewrite scan_skip_last.
  - rewrite scan_remove by auto.
    apply left_packed_cons in Hp as [Hz _]. by rewrite zeros_snoc by auto.
  - rewrite held_cons_nonzero in Hnh by done.
    apply not_elem_of_cons in Hnh as [Hne Hnh].
    apply left_packed_cons in Hp as [_ Hp].
    rewrite scan_skip by done. f_equal. by apply IH.
Qed.

Lemma filter_other_id (l : list Z) :
  code ∉ l → filter (λ y, y ≠ code) l = l.
Proof.
  induction l as [|y l IH]; [done|].
  intros [Hne Hnl]%not_elem_of_cons.
  rewrite filter_cons_True by done. by rewrite IH.
Qed.

(** With the keys held distinct, the release takes [code] out of them
    and keeps the others in order. *)
Lemma scan_release_held (rest : list Z) (x : Z) :
  left_packed (x :: rest) → NoDup (held (x :: rest)) →
  held (scan code 0 x rest) = filter (λ y, y ≠ code) (held (x :: rest)).
Proof.
  revert x. induction rest as [|y rest IH]; intros x Hp Hd.
  all: destruct (decide (x = 0)) as [->|Hx].
  all: try (rewrite scan_remove by auto; rewrite held_snoc;
            apply left_packed_cons in Hp as [Hz _]; specialize (Hz eq_refl);
            rewrite (held_zeros (0 :: _)) by (by constructor);
            by rewrite ?held_zeros by done).
  all: rewrite held_cons_nonzero in Hd |- * by done.
  all: apply NoDup_cons in Hd as [Hx' Hd].
  all: destruct (decide (x = code)) as [->|Hne].
  - rewrite scan_remove by auto. rewrite held_snoc.
    by rewrite filter_cons_False by (by intros []).
  - rewrite scan_skip_last by done. rewrite held_cons_nonzero by done.
    by rewrite filter_cons_True by done.
  - rewrite scan_remove by auto. rewrite held_snoc.
    rewrite filter_cons_False by (by intros []).
    by rewrite filter_other_id.
  - rewrite scan_skip by done. rewrite held_cons_nonzero by done.
    rewrite filter_cons_True by done. f_equal.
    apply left_packed_cons in Hp as [_ Hp]. by apply IH.
Qed.

End ReleaseMore.

(** Press and release of a new key, on the list form of the loop. *)
Lemma scan_slots_press_release (code value : Z) (k : list Z) :
  value ≠ 0 → is_u8 code → code ≠ 0 →
  left_packed k → code ∉ k →
  scan_slots code 0 (scan_slots code value k) = k.
Proof.
  intros Hv Hc Hc0. induction k as [|x k IH]; [done|].
  intros Hp [Hne Hnew]%not_elem_of_cons. cbn [scan_slots].
  destruct (decide (x = 0)) as [->|Hx].
  - rewrite scan_place by auto. rewrite u8_id by done. cbn [scan_slots].
    rewrite scan_remove by auto.
    apply left_packed_cons in Hp as [Hz _]. by rewrite zeros_snoc by auto.
  - apply left_packed_cons in Hp as [_ Hp]. specialize (IH Hp Hnew).
    destruct k as [|y k].
    + rewrite scan_skip_last by done. cbn [scan_slots]. by rewrite scan_skip_last.
    + rewrite scan_skip by done. cbn [scan_slots] in IH.
      destruct (scan_nonempty code value y k) as (y' & k' & Hs).
      rewrite Hs in IH |- *. cbn [scan_slots] in IH |- *.
      rewrite scan_skip by done. by rewrite IH.
Qed.

Lemma length_scan_slots (code value : Z) (k : list Z) :
  length (scan_slots code value k) = length k.
Proof. destruct k; [done|apply length_scan]. Qed.

(** X1. The press of a usage code that no slot holds stores the code, as
    a byte, in the first empty slot and changes no other slot. *)
Theorem press_fills_first_empty (code value : Z) (k : list Z) (i : nat) :
  length k = 6%nat → value ≠ 0 → code ∉ k →
  k !! i = Some 0 → (∀ j, (j < i)%nat → k !! j ≠ Some 0) →
  update_keys code value k = <[i := u8 code]> k.
Proof.
  intros Hlen Hv Hnew Hi Hfirst. destruct (six_slots k Hlen) as (x & rest & ->).
  rewrite update_keys_scan by done. by apply scan_press_new.
Qed.

Lemma press_fills_first_empty_witness :
  update_keys 6 1 [4; 5; 0; 0; 0; 0] = <[2%nat := u8 6]> [4; 5; 0; 0; 0; 0].
Proof.
  apply (press_fills_first_empty 6 1 [4; 5; 0; 0; 0; 0] 2).
  - reflexivity.
  - lia.
  - by_evaluation.
  - reflexivity.
  - intros [|[|j]] Hj; simpl; (discriminate || lia).
Defined.

(** X2. In a left-packed buffer the release of a usage code that is not
    among the keys held (a key that was never pressed, or whose press was
    dropped, or the code 0) changes no slot. *)
Theorem release_of_key_not_held (code : Z) (k : list Z) :
  length k = 6%nat → left_packed k → code ∉ held k →
  update_keys code 0 k = k.
Proof.
  intros Hlen Hp Hnh. destruct (six_slots k Hlen) as (x & rest & ->).
  rewrite update_keys_scan by done. by apply scan_release_not_held.
Qed.

Lemma release_of_key_not_held_witness :
  update_keys 9 0 [4; 5; 0; 0; 0; 0] = [4; 5; 0; 0; 0; 0].
Proof.
  apply (release_of_key_not_held 9 [4; 5; 0; 0; 0; 0]).
  - reflexivity.
  - apply left_packed_cons. split; [lia|].
    apply left_packed_cons. split; [lia|].
    apply left_packed_zeros. by repeat constructor.
  - by_evaluation.
Defined.

(** X3. Pressing a key that is not held and releasing it again gives the
    buffer back, whether the press found an empty slot or was dropped. *)
Theorem press_then_release (code value : Z) (k : list Z) :
  length k = 6%nat → left_packed k →
  value ≠ 0 → is_u8 code → code ≠ 0 → code ∉ k →
  update_keys code 0 (update_keys code value k) = k.
Proof.
  intros Hlen Hp Hv Hc Hc0 Hnew.
  rewrite (update_keys_scan_slots code value k) by done.
  rewrite update_keys_scan_slots by (by rewrite length_scan_slots).
  by apply scan_slots_press_release.
Qed.

Lemma press_then_release_witness :
  update_keys 6 0 (update_keys 6 1 [4; 5; 0; 0; 0; 0]) = [4; 5; 0; 0; 0; 0].
Proof.
  apply (press_then_release 6 1 [4; 5; 0; 0; 0; 0]).
  - reflexivity.
  - apply left_packed_cons. split; [lia|].
    apply left_packed_cons. split; [lia|].
    apply left_packed_zeros. by repeat constructor.
  - lia.
  - unfold is_u8. lia.
  - lia.
  - by_evaluation.
Defined.

(** X4. In a left-packed buffer whose held keys are distinct, a release
    takes exactly the released code out of the keys held; the others stay,
    in their order. *)
Theorem release_removes_from_held (code : Z) (k : list Z) :
  length k = 6%nat → left_packed k → NoDup (held k) →
  held (update_keys code 0 k) = filter (λ y, y ≠ code) (held k).
Proof.
  intros Hlen Hp Hd. destruct (six_slots k Hlen) as (x & rest & ->).
  rewrite update_keys_scan by done. by apply scan_release_held.
Qed.

Lemma release_removes_from_held_witness :
  held (update_keys 5 0 [4; 5; 6; 0; 0; 0])
  = filter (λ y, y ≠ 5) (held [4; 5; 6; 0; 0; 0]).
Proof.
  apply (release_removes_from_held 5 [4; 5; 6; 0; 0; 0]).
  - reflexivity.
  - apply left_packed_cons. split; [lia|].
    apply left_packed_cons. split; [lia|].
    apply left_packed_cons. split; [lia|].
    apply left_packed_zeros. by repeat constructor.
  - by_evaluation.
Defined.

(** X5. While a slot is empty, the press of a new key puts it last among
    the keys held: the report lists the keys in the order they were
    pressed. *)
Theorem press_appends_to_held (code value : Z) (k : list Z) :
  length k = 6%nat → left_packed k →
  value ≠ 0 → is_u8 code → code ≠ 0 → code ∉ k → 0 ∈ k →
  held (update_keys code value k) = held k ++ [code].
Proof.
  intros Hlen Hp Hv Hc Hc0 Hnew Hz.
  destruct (six_slots k Hlen) as (x & rest & ->).
  rewrite update_keys_scan by done. by apply scan_press_appends.
Qed.

Lemma press_appends_to_held_witness :
  held (update_keys 6 1 [4; 5; 0; 0; 0; 0]) = held [4; 5; 0; 0; 0; 0] ++ [6].
Proof.
  apply (press_appends_to_held 6 1 [4; 5; 0; 0; 0; 0]).
  - reflexivity.
  - apply left_packed_cons. split; [lia|].
    apply left_packed_cons. split; [lia|].
    apply left_packed_zeros. by repeat constructor.
  - lia.
  - unfold is_u8. lia.
  - lia.
  - by_evaluation.
  - by_evaluation.
Defined.

(** X6. A key without a usage (code 0 in the table) leaves a left-packed
    buffer as it is, pressed or released. *)
Theorem unmapped_key_keeps_buffer (value : Z) (k : list Z) :
  length k = 6%nat → left_packed k → update_keys 0 value k = k.
Proof.
  intros Hlen Hp. destruct (decide (value = 0)) as [->|Hv].
  - destruct (six_slots k Hlen) as (x & rest & ->).
    rewrite update_keys_scan by done. apply scan_release_not_held; [done|].
    unfold held. intros [Hne _]%list_elem_of_filter. done.
  - destruct (six_slots k Hlen) as (x & rest & Hk). rewrite Hk in *.
    rewrite update_keys_scan by done. clear Hlen Hk.
    revert x Hp. induction rest as [|y rest IH]; intros x Hp.
    all: destruct (decide (x = 0)) as [->|Hx].
    all: try by rewrite scan_place by auto.
    + by rewrite scan_skip_last.
    + rewrite scan_skip by done. f_equal.
      apply left_packed_cons in Hp as [_ Hp]. by apply IH.
Qed.

Lemma unmapped_key_keeps_buffer_witness :
  update_keys 0 1 [4; 5; 0; 0; 0; 0] = [4; 5; 0; 0; 0; 0].
Proof.
  apply (unmapped_key_keeps_buffer 1 [4; 5; 0; 0; 0; 0]).
  - reflexivity.
  - apply left_packed_cons. split; [lia|].
    apply left_packed_cons. split; [lia|].
    apply left_packed_zeros. by repeat constructor.
Defined.

(** ** Modifier keys *)

Lemma testbit_u8 (z n : Z) :
  Z.testbit (u8 z) n = (n <? 8) && Z.testbit z n.
Proof.
  unfold u8. change 256 with (2 ^ 8).
  by rewrite (Z.testbit_mod_pow2 z 8 n) by lia.
Qed.

Lemma testbit_high_byte (z n : Z) :
  is_u8 z → 8 ≤ n → Z.testbit z n = false.
Proof.
  intros Hz Hn. rewrite <- (u8_id z Hz), testbit_u8.
  by rewrite (proj2 (Z.ltb_ge n 8)) by done.
Qed.

Lemma u8_lor_bytes (a m : Z) :
  is_u8 a → is_u8 m → u8 (Z.lor a m) = Z.lor a m.
Proof.
  intros Ha Hm. apply Z.bits_inj'. intros n Hn. rewrite testbit_u8.
  destruct (Z.lt_ge_cases n 8) as [Hlow|Hhigh].
  - by rewrite (proj2 (Z.ltb_lt n 8)) by done.
  - rewrite (proj2 (Z.ltb_ge n 8)) by done.
    by rewrite Z.lor_spec, !testbit_high_byte by done.
Qed.

Lemma u8_land_byte (a b : Z) :
  is_u8 a → u8 (Z.land a b) = Z.land a b.
Proof.
  intros Ha. apply Z.bits_inj'. intros n Hn. rewrite testbit_u8.
  destruct (Z.lt_ge_cases n 8) as [Hlow|Hhigh].
  - by rewrite (proj2 (Z.ltb_lt n 8)) by done.
  - rewrite (proj2 (Z.ltb_ge n 8)) by done.
    by rewrite Z.land_spec, (testbit_high_byte a) by done.
Qed.

(** X7. An event for a modifier key leaves the six slots and the fixed
    bytes of the report alone.  The modifier byte stays a byte: a press
    sets the bits of the key's mask, a release clears them, and the bits of
    the other modifiers are kept; the same event once more changes
    nothing. *)
Theorem modifier_event_bits `{hid_tables} (ev : input_event_t) (r : key_report) :
  modifier_of (ev_code ev) ≠ 0 →
  is_u8 (modifier_of (ev_code ev)) →
  is_u8 (mods r) →
  let m := modifier_of (ev_code ev) in
  let r' := apply_key_event ev r in
  key r' = key r
  ∧ type r' = type r ∧ report_id r' = report_id r ∧ reserved r' = reserved r
  ∧ is_u8 (mods r')
  ∧ (∀ n, Z.testbit (mods r') n =
          if bool_decide (ev_value ev ≠ 0)
          then Z.testbit (mods r) n || Z.testbit m n
          else Z.testbit (mods r) n && negb (Z.testbit m n))
  ∧ apply_key_event ev r' = r'.
Proof.
  intros Hm Hbyte Hmods m r'.
  set (M := if bool_decide (ev_value ev ≠ 0) then Z.lor (mods r) m
            else Z.land (mods r) (Z.lnot m)).
  assert (u8 M = M) as HM.
  { unfold M. case_bool_decide; [by apply u8_lor_bytes|by apply u8_land_byte]. }
  assert (r' = set_mods r M) as ->.
  { unfold r', apply_key_event. fold m.
    rewrite (bool_decide_eq_true_2 (m ≠ 0)) by done.
    unfold M. case_bool_decide;
      [by rewrite u8_lor_bytes|by rewrite u8_land_byte]. }
  simpl. split_and!; try done.
  - rewrite <- HM. apply u8_is_u8.
  - intros n. unfold M. destruct (Z.lt_ge_cases n 0) as [Hneg|Hn].
    { rewrite !(Z.testbit_neg_r _ n) by done. by case_bool_decide. }
    case_bool_decide; [apply Z.lor_spec|].
    by rewrite Z.land_spec, Z.lnot_spec by done.
  - unfold apply_key_event. fold m.
    rewrite (bool_decide_eq_true_2 (m ≠ 0)) by done.
    unfold set_mods. simpl. unfold M at 1 2.
    case_bool_decide as Hv.
    + rewrite <- Z.lor_assoc, Z.lor_diag. fold M. by rewrite HM.
    + rewrite <- Z.land_assoc, Z.land_diag. fold M. by rewrite HM.
Qed.

Lemma modifier_event_bits_witness :
  let r := KeyReport 0xa1 0x01 0x02 0 [4; 0; 0; 0; 0; 0] in
  let ev := InputEvent EV_KEY KEY_LEFTCTRL 1 in
  let m := modifier_of (H := sample_tables) (ev_code ev) in
  let r' := apply_key_event (H := sample_tables) ev r in
  key r' = key r
  ∧ type r' = type r ∧ report_id r' = report_id r ∧ reserved r' = reserved r
  ∧ is_u8 (mods r')
  ∧ (∀ n, Z.testbit (mods r') n =
          if bool_decide (ev_value ev ≠ 0)
          then Z.testbit (mods r) n || Z.testbit m n
          else Z.testbit (mods r) n && negb (Z.testbit m n))
  ∧ apply_key_event (H := sample_tables) ev r' = r'.
Proof.
  apply (modifier_event_bits (H := sample_tables)
           (InputEvent EV_KEY KEY_LEFTCTRL 1)
           (KeyReport 0xa1 0x01 0x02 0 [4; 0; 0; 0; 0; 0])).
  - by_evaluation.
  - unfold is_u8. by_evaluation.
  - unfold is_u8. by_evaluation.
Defined.

(** ** The usage table *)

(** X8. [input_event] reads the usage table at key codes from 0 to 255
    only: with the same modifier masks, two tables that agree there give
    the same result, whatever the read, the event and the write. *)
Theorem usage_table_read_in_bounds (m1 m2 m3 m4 m5 m6 : Z) (t1 t2 : Z → Z)
    (st : status) (input ctrl intr : Z) (size : Z) (ev : input_event_t) (wr : Z) :
  0 ≤ ev_code ev →
  (∀ c, 0 ≤ c < 256 → t1 c = t2 c) →
  input_event (H := HidTables m1 m2 m3 m4 m5 m6 t1) st input ctrl intr size ev wr
  = input_event (H := HidTables m1 m2 m3 m4 m5 m6 t2) st input ctrl intr size ev wr.
Proof.
  intros Hcode Hagree. unfold input_event.
  repeat case_bool_decide; try done.
  all: assert (apply_key_event (H := HidTables m1 m2 m3 m4 m5 m6 t1) ev (report st)
               = apply_key_event (H := HidTables m1 m2 m3 m4 m5 m6 t2) ev (report st))
         as -> by (unfold apply_key_event, modifier_of; simpl;
                   by rewrite (Hagree (ev_code ev)) by lia).
  all: done.
Qed.

Lemma usage_table_read_in_bounds_witness :
  input_event (H := HidTables 0x01 0x02 0x04 0x10 0x20 0x40 sample_linux2hid)
    (Status 0 (KeyReport 0xa1 0x01 0 0 [0; 0; 0; 0; 0; 0])) 3 7 8
    sizeof_input_event (InputEvent EV_KEY 30 1) 10
  = input_event
      (H := HidTables 0x01 0x02 0x04 0x10 0x20 0x40
              (λ c, if bool_decide (0 ≤ c < 256) then sample_linux2hid c else 77))
      (Status 0 (KeyReport 0xa1 0x01 0 0 [0; 0; 0; 0; 0; 0])) 3 7 8
      sizeof_input_event (InputEvent EV_KEY 30 1) 10.
Proof.
  apply (usage_table_read_in_bounds 0x01 0x02 0x04 0x10 0x20 0x40
           sample_linux2hid
           (λ c, if bool_decide (0 ≤ c < 256) then sample_linux2hid c else 77)).
  - simpl. lia.
  - intros c Hc. by rewrite bool_decide_eq_true_2.
Defined.

(** ** More on the frames from the host *)

(** X9. [btooth_command] fails, with -1, exactly when the read returned
    -1 or 0; it then writes nothing, neither a reply nor an LED.  In every
    other case it returns 0. *)
Theorem btooth_command_failure (st : status) (fd input : Z)
    (size : Z) (buf : list Z) :
  let r := btooth_command st fd input size buf in
  (r.1.1 = -1 ↔ size = -1 ∨ size = 0)
  ∧ (r.1.1 = 0 ↔ size ≠ -1 ∧ size ≠ 0)
  ∧ (size = -1 → r.2 = [Diag RemoteReadError])
  ∧ (size = 0 → r.2 = [Diag RemoteDisconnected]).
Proof.
  unfold btooth_command.
  repeat case_bool_decide; simpl; split_and!; try done; try lia;
    intuition (done || lia).
Qed.




(** X12. [set_leds] looks at the five low bits of the mask only, and
    every value it writes is 0 or 1. *)
Theorem set_leds_low_bits (input leds : Z) :
  set_leds input leds = set_leds input (Z.land leds 0x1f)
  ∧ Forall (λ cv, cv.2 = 0 ∨ cv.2 = 1) (led_requests input (set_leds input leds).2).
Proof.
  split.
  - rewrite !set_leds_bits. rewrite !Z.land_spec.
    change (Z.testbit 31 0) with true. change (Z.testbit 31 1) with true.
    change (Z.testbit 31 2) with true. change (Z.testbit 31 3) with true.
    change (Z.testbit 31 4) with true. by rewrite !andb_true_r.
  - rewrite set_leds_bits.
    generalize (Z.testbit leds 0), (Z.testbit leds 1), (Z.testbit leds 2),
      (Z.testbit leds 3), (Z.testbit leds 4).
    intros b0 b1 b2 b3 b4. unfold led_requests. simpl.
    rewrite !(bool_decide_eq_true_2 (input = input)) by done. simpl.
    repeat (apply Forall_cons; split; [simpl; by destruct_all bool; auto|]).
    apply Forall_nil_2.
Qed.

(** ** More on opening the device *)

Lemma land_bit0 (f : Z) : Z.land f 1 = 0 ↔ Z.testbit f 0 = false.
Proof.
  pose proof (led_value_testbit f 0) as Hl. unfold led_value in Hl.
  change (2 ^ 0) with 1 in Hl. specialize (Hl (Z.le_refl 0)).
  case_bool_decide as Hz; destruct (Z.testbit f 0); simpl in Hl;
    split; intros; try done; try lia.
Qed.

Lemma major_version (v : Z) :
  Z.shiftr v 16 = Z.shiftr EV_VERSION 16 ↔ 0x10000 ≤ v < 0x20000.
Proof.
  change (Z.shiftr EV_VERSION 16) with 1.
  rewrite Z.shiftr_div_pow2 by lia. change (2 ^ 16) with 65536.
  pose proof (Z.div_mod v 65536) as Hdm.
  pose proof (Z.mod_pos_bound v 65536) as Hr.
  generalize dependent (v / 65536). generalize dependent (v `mod` 65536).
  intros r q Hdm Hr. lia.
Qed.

(** [input_open] by cases: what it returns and logs when every step goes
    well, and that it returns -1 otherwise. *)
Lemma input_open_cases (e : open_env) :
  (open_ok e ∧
   input_open e = (open_ret e,
                   [ OpenDev (open_ret e); Ioctl (open_ret e) EVIOCGVERSION;
                     Ioctl (open_ret e) EVIOCGBIT; Ioctl (open_ret e) EVIOCGRAB;
                     Ioctl (open_ret e) EVIOCSREP ]))
  ∨ (¬ open_ok e ∧ (input_open e).1 = -1).
Proof.
  unfold open_ok, input_open.
  pose proof (major_version (version e)) as Hv.
  pose proof (land_bit0 (features e)) as Hf. fold EV_KEY in Hf.
  case_bool_decide as H1; [right; split; [tauto|done]|].
  case_bool_decide as H2; [right; split; [tauto|done]|].
  case_bool_decide as H3; [right; split; [tauto|done]|].
  case_bool_decide as H4; [right; split; [tauto|done]|].
  case_bool_decide as H5;
    [right; split; [|done]; apply Hf in H5; intros (_&_&_&_&Hb&_); congruence|].
  case_bool_decide as H6; [right; split; [tauto|done]|].
  case_bool_decide as H7; [right; split; [tauto|done]|].
  left. split; [|done]. split_and!; try done.
  - by apply Hv.
  - by apply Hv.
  - destruct (Z.testbit (features e) 0) eqn:Hb; [done|].
    exfalso. apply H5. by apply Hf.
Qed.

(** X13. [input_open] returns a descriptor, the one [open] gave, exactly
    when every step goes well; otherwise it returns -1.  Of the version
    only the major part is compared, and the capability tested is bit 0 of
    the event types.  On success the four requests were made in the order
    version, event types, grab, autorepeat. *)
Theorem input_open_succeeds_iff (e : open_env) :
  ((input_open e).1 ≠ -1 ↔ open_ok e)
  ∧ (open_ok e →
     input_open e = (open_ret e,
                     [ OpenDev (open_ret e); Ioctl (open_ret e) EVIOCGVERSION;
                       Ioctl (open_ret e) EVIOCGBIT; Ioctl (open_ret e) EVIOCGRAB;
                       Ioctl (open_ret e) EVIOCSREP ])).
Proof.
  destruct (input_open_cases e) as [[Hok Heq]|[Hno Hfail]].
  - split; [|done]. rewrite Heq. simpl. split; [done|]. intros _. apply Hok.
  - split; [|done]. rewrite Hfail. split; done.
Qed.

(** X14. [input_open] asks for the grab only after the version and the
    capability were read and found right, and changes the autorepeat only
    after the grab was granted: a device that fails a check is left as it
    was found. *)
Theorem grab_only_after_validation (e : open_env) (fd : Z) :
  (Ioctl fd EVIOCGRAB ∈ (input_open e).2 →
   fd = open_ret e ∧ open_ret e ≠ -1 ∧ version_ret e ≠ -1
   ∧ 0x10000 ≤ version e < 0x20000
   ∧ features_ret e ≠ -1 ∧ Z.testbit (features e) 0 = true)
  ∧ (Ioctl fd EVIOCSREP ∈ (input_open e).2 →
     Ioctl fd EVIOCGRAB ∈ (input_open e).2 ∧ grab_ret e ≠ -1).
Proof.
  pose proof (major_version (version e)) as Hv.
  pose proof (land_bit0 (features e)) as Hf. fold EV_KEY in Hf.
  assert (∀ l, Ioctl fd EVIOCGRAB ∈ l ∨ Ioctl fd EVIOCSREP ∈ l →
               Forall (λ a, a ≠ Ioctl fd EVIOCGRAB ∧ a ≠ Ioctl fd EVIOCSREP) l →
               False) as Habsent.
  { intros l Hin Hall. rewrite Forall_forall in Hall.
    destruct Hin as [Hin|Hin]; apply Hall in Hin; tauto. }
  unfold input_open.
  case_bool_decide as H1;
    [split; intros Hin; exfalso; apply (Habsent _ ltac:(eauto));
     by repeat constructor|].
  case_bool_decide as H2;
    [split; intros Hin; exfalso; apply (Habsent _ ltac:(eauto));
     by repeat constructor|].
  case_bool_decide as H3;
    [split; intros Hin; exfalso; apply (Habsent _ ltac:(eauto));
     by repeat constructor|].
  case_bool_decide as H4;
    [split; intros Hin; exfalso; apply (Habsent _ ltac:(eauto));
     by repeat constructor|].
  case_bool_decide as H5;
    [split; intros Hin; exfalso; apply (Habsent _ ltac:(eauto));
     by repeat constructor|].
  assert (Z.testbit (features e) 0 = true) as Hbit.
  { destruct (Z.testbit (features e) 0) eqn:Hb; [done|].
    exfalso. apply H5. by apply Hf. }
  assert (0x10000 ≤ version e < 0x20000) as Hmajor by (by apply Hv).
  assert (∀ l, Ioctl fd EVIOCGRAB ∈ OpenDev (open_ret e)
                 :: Ioctl (open_ret e) EVIOCGVERSION
                 :: Ioctl (open_ret e) EVIOCGBIT
                 :: Ioctl (open_ret e) EVIOCGRAB :: l →
               Forall (λ a, a ≠ Ioctl fd EVIOCGRAB) l →
               fd = open_ret e) as Hgrab.
  { intros l Hin Hall. rewrite Forall_forall in Hall.
    rewrite !elem_of_cons in Hin.
    destruct Hin as [?|[?|[?|[Heq|Hin]]]]; try done.
    - by injection Heq.
    - by apply Hall in Hin. }
  assert (open_ret e ≠ -1 ∧ version_ret e ≠ -1
          ∧ 0x10000 ≤ version e < 0x20000
          ∧ features_ret e ≠ -1 ∧ Z.testbit (features e) 0 = true) as Hrest
    by (split_and!; try done; lia).
  case_bool_decide as H6; simpl.
  { split; intros Hin.
    - split; [|done]. apply (Hgrab _ Hin). by repeat constructor.
    - exfalso. rewrite !elem_of_cons, elem_of_nil in Hin.
      by decompose [or] Hin. }
  case_bool_decide as H7; simpl.
  - split; intros Hin.
    + split; [|done]. apply (Hgrab _ Hin). by repeat constructor.
    + split; [|done]. rewrite !elem_of_cons, elem_of_nil in Hin.
      destruct Hin as [?|[?|[?|[?|[Heq|[?|?]]]]]]; try done.
      injection Heq as ->. rewrite !elem_of_cons. auto.
  - split; intros Hin.
    + split; [|done]. apply (Hgrab _ Hin). by repeat constructor.
    + split; [|done]. rewrite !elem_of_cons, elem_of_nil in Hin.
      destruct Hin as [?|[?|[?|[?|[Heq|?]]]]]; try done.
      injection Heq as ->. rewrite !elem_of_cons. auto.
Qed.

(** ** Invariants of the session loop *)

Lemma then_part_keeps (I W : sess → Prop) (p q : part) :
  part_keeps I W p → part_keeps I W q → part_keeps I W (p ;;; q).
Proof.
  intros Hp Hq s Hs. unfold then_part.
  destruct (Hp s Hs) as [HW HI]. destruct (p s) as [[] s']; simpl in *.
  - split; [done|done].
  - apply Hq. by apply HI.
Qed.

Lemma when_keeps (I W : sess → Prop) (b : bool) (p : part) :
  (∀ s, I s → W s) → part_keeps I W p → part_keeps I W (when b p).
Proof.
  intros HIW Hp s Hs. unfold when. destruct b; [by apply Hp|].
  simpl. split; [by apply HIW|done].
Qed.

Lemma input_event_log `{hid_tables} (st : status) (input ctrl intr : Z)
    (size : Z) (ev : input_event_t) (wr : Z) :
  Forall (input_event_action intr (input_event st input ctrl intr size ev wr).1.2)
         (input_event st input ctrl intr size ev wr).2.
Proof.
  unfold input_event, input_event_action.
  repeat case_bool_decide; simpl; repeat (apply Forall_cons; split);
    try apply Forall_nil_2; eauto.
Qed.

Lemma btooth_command_log (st : status) (fd input : Z) (size : Z) (buf : list Z) :
  Forall (btooth_command_action fd input) (btooth_command st fd input size buf).2.
Proof.
  unfold btooth_command, btooth_command_action.
  repeat case_match; simpl; repeat (apply Forall_cons; split);
    try apply Forall_nil_2; eauto 6.
Qed.

Section LoopInvariants.
Context `{hid_tables}.
Variable tgt_any : bool.
Variables I W : sess → Prop.
Hypothesis I_W : ∀ s, I s → W s.

(** The loop keeps what each of its five parts keeps. *)
Lemma loop_body_keeps (w : wakeup) :
  part_keeps I W (reach_out tgt_any w) →
  part_keeps I W (run_input_event w) →
  part_keeps I W (run_btooth_command control (ctrl_size w) (ctrl_buf w)) →
  part_keeps I W (run_btooth_command intr (intr_size w) (intr_buf w)) →
  part_keeps I W (accept_control w) →
  part_keeps I W (accept_intr_part w) →
  part_keeps I W (loop_body tgt_any w).
Proof.
  intros H1 H2 H3 H4 H5 H6 s. unfold loop_body.
  apply then_part_keeps; [apply when_keeps; [done|by apply then_part_keeps]|].
  apply then_part_keeps; [by apply when_keeps|].
  apply then_part_keeps; [by apply when_keeps|].
  apply then_part_keeps; by apply when_keeps.
Qed.

Lemma main_loop_keeps (ws : list wakeup) :
  (∀ w, part_keeps I W (loop_body tgt_any w)) →
  part_keeps I W (main_loop tgt_any ws).
Proof.
  intros Hbody. induction ws as [|w ws IH]; intros s Hs; simpl.
  - split; [by apply I_W|done].
  - case_bool_decide; [|split; [by apply I_W|done]].
    destruct (Hbody w s Hs) as [HW HI].
    destruct (loop_body tgt_any w s) as [[] s']; simpl in *; [done|].
    apply IH. by apply HI.
Qed.

End LoopInvariants.

(** [session] by cases, with the state the loop starts from. *)
Lemma session_cases `{hid_tables} (tgt_any : bool) (oe : open_env)
    (listen_intr listen_ctrl : Z) (ws : list wakeup) :
  session tgt_any oe listen_intr listen_ctrl ws =
    let input0 := (input_open oe).1 in
    let l1 := (input_open oe).2 ++ (set_leds input0 (leds initial_status)).2 in
    if bool_decide (input0 = -1) then (Some 0, initial_status, (input_open oe).2)
    else if bool_decide (listen_intr = -1)
    then (Some 0, initial_status,
          (l1 ++ [Listen L2CAP_PSM_HIDP_INTR listen_intr]) ++ [Close input0])
    else if bool_decide (listen_ctrl = -1)
    then (Some 0, initial_status,
          ((l1 ++ [Listen L2CAP_PSM_HIDP_INTR listen_intr])
           ++ [Listen L2CAP_PSM_HIDP_CTRL listen_ctrl])
          ++ [Close input0; Close listen_intr])
    else
      let r := main_loop tgt_any ws (session_start oe listen_intr listen_ctrl) in
      if r.1 then (Some 1, s_status r.2, s_log r.2 ++ cleanup r.2)
      else (None, s_status r.2, s_log r.2).
Proof.
  unfold session, session_start. destruct (input_open oe) as [input0 l0].
  simpl. repeat case_bool_decide; try done.
  by destruct (main_loop _ _ _) as [[] s].
Qed.

Lemma log_all_logging (P : action → Prop) (s : sess) (l : list action) :
  log_all P s → Forall P l → log_all P (logging s l).
Proof. intros Hs Hl. unfold log_all, logging. simpl. by apply Forall_app. Qed.

Lemma input_open_log_shape (e : open_env) :
  Forall (λ a, (∃ f, a = Diag f) ∨ (∃ fd, a = OpenDev fd)
               ∨ (∃ fd r, a = Ioctl fd r)) (input_open e).2.
Proof.
  unfold input_open.
  repeat case_bool_decide; simpl; repeat (apply Forall_cons; split);
    try apply Forall_nil_2; eauto 6.
Qed.

Lemma set_leds_log_shape (input leds : Z) :
  Forall (λ a, ∃ ev, a = WriteEvent input ev) (set_leds input leds).2.
Proof. simpl. repeat (apply Forall_cons; split); try apply Forall_nil_2; eauto. Qed.

Lemma cleanup_shape `{hid_tables} (s : sess) :
  Forall (λ a, ∃ fd, a = Close fd) (cleanup s).
Proof.
  unfold cleanup. repeat case_bool_decide; simpl;
    repeat (apply Forall_cons; split); try apply Forall_nil_2; eauto.
Qed.

(** ** A session that only accepts *)

Section AcceptOnly.
Context `{hid_tables}.

Lemma reach_out_accept_only (w : wakeup) (s : sess) :
  (reach_out true w s).2 = s.
Proof. unfold reach_out. by case_bool_decide. Qed.

Lemma accept_only_body (w : wakeup) :
  part_keeps (log_all not_connect) (log_all not_connect) (loop_body true w).
Proof.
  apply loop_body_keeps; [done|..]; intros s Hs.
  - rewrite reach_out_accept_only. split; done.
  - unfold run_input_event.
    pose proof (input_event_log (s_status s) (input s) (control s) (intr s)
                  (ev_size w) (ev w) (report_wr w)) as Hl.
    destruct (input_event _ _ _ _ _ _ _) as [[ret st] l]. simpl in *.
    assert (log_all not_connect (logging (with_status s st) l)) as Hs'.
    { apply log_all_logging; [done|]. eapply Forall_impl; [exact Hl|].
      intros a [[f ->]| ->]; done. }
    done.
  - unfold run_btooth_command.
    pose proof (btooth_command_log (s_status s) (control s) (input s)
                  (ctrl_size w) (ctrl_buf w)) as Hl.
    destruct (btooth_command _ _ _ _ _) as [[ret st] l]. simpl in *.
    assert (log_all not_connect (logging (with_status s st) l)) as Hs'.
    { apply log_all_logging; [done|]. eapply Forall_impl; [exact Hl|].
      intros a [[f ->]|[->|[->|[e ->]]]]; done. }
    done.
  - unfold run_btooth_command.
    pose proof (btooth_command_log (s_status s) (intr s) (input s)
                  (intr_size w) (intr_buf w)) as Hl.
    destruct (btooth_command _ _ _ _ _) as [[ret st] l]. simpl in *.
    assert (log_all not_connect (logging (with_status s st) l)) as Hs'.
    { apply log_all_logging; [done|]. eapply Forall_impl; [exact Hl|].
      intros a [[f ->]|[->|[->|[e ->]]]]; done. }
    done.
  - unfold accept_control, log_all in *. destruct s as [st inp c i sc si lg].
    simpl in *. repeat case_bool_decide; simpl;
      rewrite ?Forall_app; repeat split; try done; by repeat constructor.
  - unfold accept_intr_part, log_all in *. destruct s as [st inp c i sc si lg].
    simpl in *. repeat case_bool_decide; simpl;
      rewrite ?Forall_app; repeat split; try done; by repeat constructor.
Qed.

End AcceptOnly.

(** X15. A session without a target address (accept-only) never calls
    [l2cap_connect], whatever happens: none of its actions is a [Connect]. *)
Theorem accept_only_never_connects `{hid_tables} (oe : open_env)
    (listen_intr listen_ctrl : Z) (ws : list wakeup) (a : action) :
  a ∈ (session true oe listen_intr listen_ctrl ws).2 →
  not_connect a.
Proof.
  assert (Forall not_connect (session true oe listen_intr listen_ctrl ws).2)
    as Hall.
  { rewrite session_cases. cbn zeta.
    assert (Forall not_connect (input_open oe).2) as Ho.
    { eapply Forall_impl; [apply input_open_log_shape|].
      intros b [[f ->]|[[fd ->]|[fd [r ->]]]]; done. }
    assert (Forall not_connect
              (set_leds (input_open oe).1 (leds initial_status)).2) as Hl.
    { eapply Forall_impl; [apply set_leds_log_shape|]. by intros b [e ->]. }
    repeat case_bool_decide; simpl; try done.
    - rewrite !Forall_app. split_and!; try done; by repeat constructor.
    - rewrite !Forall_app. split_and!; try done; by repeat constructor.
    - assert (log_all not_connect (session_start oe listen_intr listen_ctrl))
        as Hstart.
      { unfold log_all, session_start. simpl.
        rewrite !Forall_app. split_and!; try done; by repeat constructor. }
      destruct (main_loop_keeps true _ _ (λ s Hs, Hs) ws accept_only_body
                  _ Hstart) as [Hend _].
      destruct (main_loop _ _ _) as [[] s]; simpl in *; [|done].
      apply Forall_app. split; [done|].
      eapply Forall_impl; [apply cleanup_shape|]. by intros b [fd ->]. }
  rewrite Forall_forall in Hall. intros Hin. by apply Hall in Hin.
Qed.

(** A key event arrives before any host has connected. *)
Lemma accept_only_never_connects_witness :
  not_connect (Close 3).
Proof.
  apply (accept_only_never_connects (H := sample_tables)
           (OpenEnv 3 0 EV_VERSION 0 1 0 0) 4 5
           [ Wakeup 1 true false false false false 7 8
               sizeof_input_event (InputEvent EV_KEY 30 1) 10 0 [] 0 []
               (-1) (-1) ]).
  apply (list_elem_of_lookup_2 _ 12%nat). reflexivity.
Defined.

(** ** What a session writes *)

Section Wire.
Context `{hid_tables}.
Variable tgt_any : bool.

Lemma apply_key_event_report_inv (ev : input_event_t) (r : key_report) :
  report_inv r → report_inv (apply_key_event ev r).
Proof.
  intros (Ht & Hi & Hr & Hm & Hk). unfold apply_key_event.
  case_bool_decide; [case_bool_decide|]; simpl; split_and!; try done.
  - apply u8_is_u8.
  - apply u8_is_u8.
  - by apply update_keys_inv.
Qed.

Lemma input_event_status_inv (st : status) (input ctrl intr : Z)
    (size : Z) (ev : input_event_t) (wr : Z) :
  status_inv st → status_inv (input_event st input ctrl intr size ev wr).1.2.
Proof.
  intros [Hr Hd]. unfold status_inv.
  destruct (input_event_report input ctrl intr st size ev wr) as [_ [->| ->]];
    [done|].
  split; [by apply apply_key_event_report_inv|].
  intros Ht. destruct Hr as (_ & _ & _ & _ & Hk).
  apply apply_key_event_distinct; [done|done|by apply Hd].
Qed.

Lemma report_frame (r : key_report) :
  report_inv r → key_report_frame (report_bytes r).
Proof.
  intros (Ht & Hi & Hr & Hm & Hk). exists (mods r), (key r).
  unfold report_bytes. by rewrite Ht, Hi, Hr.
Qed.

Lemma hello_frames (fd : Z) : Forall frame_ok (hello fd).
Proof. unfold hello. repeat (apply Forall_cons; split); simpl; auto. Qed.

Lemma wire_body (w : wakeup) :
  part_keeps wire_inv wire_inv (loop_body tgt_any w).
Proof.
  apply loop_body_keeps; [done|..]; intros s [Hst Hlog].
  - assert (wire_inv (reach_out tgt_any w s).2); [|done].
    unfold reach_out. pose proof hello_frames as Hh.
    destruct s as [st inp c i sc si lg]. unfold wire_inv, log_all in *.
    simpl in *. repeat case_match; simpl; (split; [done|]);
      rewrite ?Forall_app; repeat split; try done; by repeat constructor.
  - unfold run_input_event.
    pose proof (input_event_log (s_status s) (input s) (control s) (intr s)
                  (ev_size w) (ev w) (report_wr w)) as Hl.
    pose proof (input_event_status_inv (s_status s) (input s) (control s)
                  (intr s) (ev_size w) (ev w) (report_wr w) Hst) as Hst'.
    destruct (input_event _ _ _ _ _ _ _) as [[ret st] l]. simpl in *.
    assert (wire_inv (logging (with_status s st) l)); [|done].
    split; [done|]. apply log_all_logging; [done|].
    eapply Forall_impl; [exact Hl|].
    intros a [[f ->]| ->]; simpl; [done|].
    do 4 right. apply report_frame, Hst'.
  - unfold run_btooth_command.
    pose proof (btooth_command_log (s_status s) (control s) (input s)
                  (ctrl_size w) (ctrl_buf w)) as Hl.
    pose proof (btooth_command_status (s_status s) (control s) (input s)
                  (ctrl_size w) (ctrl_buf w)) as Hsame.
    destruct (btooth_command _ _ _ _ _) as [[ret st] l]. simpl in *. subst st.
    assert (wire_inv (logging (with_status s (s_status s)) l)); [|done].
    split; [done|]. apply log_all_logging; [done|].
    eapply Forall_impl; [exact Hl|].
    intros a [[f ->]|[->|[->|[e ->]]]]; simpl; auto.
  - unfold run_btooth_command.
    pose proof (btooth_command_log (s_status s) (intr s) (input s)
                  (intr_size w) (intr_buf w)) as Hl.
    pose proof (btooth_command_status (s_status s) (intr s) (input s)
                  (intr_size w) (intr_buf w)) as Hsame.
    destruct (btooth_command _ _ _ _ _) as [[ret st] l]. simpl in *. subst st.
    assert (wire_inv (logging (with_status s (s_status s)) l)); [|done].
    split; [done|]. apply log_all_logging; [done|].
    eapply Forall_impl; [exact Hl|].
    intros a [[f ->]|[->|[->|[e ->]]]]; simpl; auto.
  - assert (wire_inv (accept_control w s).2); [|done].
    unfold accept_control.
    destruct s as [st inp c i sc si lg]. unfold wire_inv, log_all in *.
    simpl in *. repeat case_match; simpl; (split; [done|]);
      rewrite ?Forall_app; repeat split; try done; by repeat constructor.
  - assert (wire_inv (accept_intr_part w s).2); [|done].
    unfold accept_intr_part. pose proof hello_frames as Hh.
    destruct s as [st inp c i sc si lg]. unfold wire_inv, log_all in *.
    simpl in *. repeat case_match; simpl; (split; [done|]);
      rewrite ?Forall_app; repeat split; try done; by repeat constructor.
Qed.

Lemma initial_status_inv : status_inv initial_status.
Proof.
  split; [|intros _; apply NoDup_nil_2].
  unfold report_inv, initial_status. cbn [report type report_id reserved mods key].
  split; [reflexivity|]. split; [reflexivity|]. split; [reflexivity|].
  split; [unfold is_u8; lia|apply empty_buffer_inv].
Qed.

Lemma session_start_wire (oe : open_env) (listen_intr listen_ctrl : Z) :
  wire_inv (session_start oe listen_intr listen_ctrl).
Proof.
  split; [apply initial_status_inv|].
  unfold log_all, session_start. simpl. rewrite !Forall_app. split_and!.
  - eapply Forall_impl; [apply input_open_log_shape|].
    intros a [[f ->]|[[fd ->]|[fd [r ->]]]]; done.
  - by repeat constructor.
  - by repeat constructor.
  - by repeat constructor.
Qed.

(** The loop leaves the report and the log in order. *)
Lemma session_loop_wire (oe : open_env) (listen_intr listen_ctrl : Z)
    (ws : list wakeup) :
  wire_inv (main_loop tgt_any ws (session_start oe listen_intr listen_ctrl)).2.
Proof.
  by destruct (main_loop_keeps tgt_any wire_inv wire_inv (λ s Hs, Hs) ws
                 wire_body _ (session_start_wire oe listen_intr listen_ctrl))
    as [Hend _].
Qed.

End Wire.

(** X16. Whatever a session writes to a socket is one of the two
    greeting frames, one handshake byte, or a key report of ten bytes:
    [a1 01], the modifier byte, [00], and six left-packed byte slots. *)
Theorem session_writes_frames `{hid_tables} (tgt_any : bool) (oe : open_env)
    (listen_intr listen_ctrl : Z) (ws : list wakeup) (fd : Z) (bytes : list Z) :
  WriteBytes fd bytes ∈ (session tgt_any oe listen_intr listen_ctrl ws).2 →
  bytes = [0xa1; 0x13; 0x03] ∨ bytes = [0xa1; 0x13; 0x02]
  ∨ bytes = [handshake_successful] ∨ bytes = [handshake_err_unknown]
  ∨ (length bytes = 10%nat ∧ key_report_frame bytes).
Proof.
  assert (Forall frame_ok (session tgt_any oe listen_intr listen_ctrl ws).2)
    as Hall.
  { rewrite session_cases. cbn zeta.
    destruct (session_start_wire oe listen_intr listen_ctrl) as [_ Hstart].
    unfold log_all, session_start in Hstart. simpl in Hstart.
    rewrite !Forall_app in Hstart. destruct Hstart as [[[Ho Hl] _] _].
    repeat case_bool_decide; simpl; try done.
    - rewrite !Forall_app. split_and!; try done; by repeat constructor.
    - rewrite !Forall_app. split_and!; try done; by repeat constructor.
    - destruct (session_loop_wire tgt_any oe listen_intr listen_ctrl ws)
        as [_ Hend].
      destruct (main_loop _ _ _) as [[] s]; simpl in *; [|done].
      apply Forall_app. split; [done|].
      eapply Forall_impl; [apply cleanup_shape|]. by intros a [x ->]. }
  rewrite Forall_forall in Hall. intros Hin. apply Hall in Hin. simpl in Hin.
  destruct Hin as [?|[?|[?|[?|Hrep]]]]; auto.
  do 4 right. split; [|done].
  destruct Hrep as (m & k & -> & _ & [[Hlen _] _]). simpl. by rewrite Hlen.
Qed.

Lemma session_writes_frames_witness :
  [0xa1; 0x01; 0; 0; 4; 0; 0; 0; 0; 0] = [0xa1; 0x13; 0x03]
  ∨ [0xa1; 0x01; 0; 0; 4; 0; 0; 0; 0; 0] = [0xa1; 0x13; 0x02]
  ∨ [0xa1; 0x01; 0; 0; 4; 0; 0; 0; 0; 0] = [handshake_successful]
  ∨ [0xa1; 0x01; 0; 0; 4; 0; 0; 0; 0; 0] = [handshake_err_unknown]
  ∨ (length [0xa1; 0x01; 0; 0; 4; 0; 0; 0; 0; 0] = 10%nat
     ∧ key_report_frame [0xa1; 0x01; 0; 0; 4; 0; 0; 0; 0; 0]).
Proof.
  apply (session_writes_frames (H := sample_tables) false
           (OpenEnv 3 0 EV_VERSION 0 1 0 0) 4 5
           [ Wakeup 1 true false false false false 7 8
               sizeof_input_event (InputEvent EV_KEY 30 1) 10 0 [] 0 []
               (-1) (-1) ] 8).
  apply (list_elem_of_lookup_2 _ 17%nat). reflexivity.
Defined.

(** X17. At every point of every session the report kept in the status
    has its fixed bytes [a1 01 .. 00], a modifier byte, and six byte slots
    that are left-packed; the keys held are distinct when the usage table
    has byte entries.  Frames from the host, modifier keys and ignored
    events may come in any order between the key events. *)
Theorem session_report_invariant `{hid_tables} (tgt_any : bool) (oe : open_env)
    (listen_intr listen_ctrl : Z) (ws : list wakeup) :
  let r := report (session tgt_any oe listen_intr listen_ctrl ws).1.2 in
  type r = 0xa1 ∧ report_id r = 0x01 ∧ reserved r = 0
  ∧ is_u8 (mods r)
  ∧ wf_keys (key r) ∧ left_packed (key r)
  ∧ (byte_table → NoDup (held (key r))).
Proof.
  assert (status_inv (session tgt_any oe listen_intr listen_ctrl ws).1.2)
    as [(Ht & Hi & Hr & Hm & Hwf & Hp) Hd]; [|by split_and!].
  rewrite session_cases. cbn zeta.
  repeat case_bool_decide; simpl; try apply initial_status_inv.
  destruct (session_loop_wire tgt_any oe listen_intr listen_ctrl ws)
    as [Hend _].
  by destruct (main_loop _ _ _) as [[] s].
Qed.

(** ** The descriptors of a session *)

Lemma open_fds_app (l1 l2 : list action) (fds : list Z) :
  open_fds (l1 ++ l2) fds = open_fds l2 (open_fds l1 fds).
Proof. revert fds. induction l1 as [|a l1 IH]; intros fds; simpl; [done|apply IH]. Qed.

Lemma open_fds_neutral (l : list action) (fds : list Z) :
  Forall fd_neutral l → open_fds l fds = fds.
Proof.
  induction 1 as [|a l Ha _ IH]; simpl; [done|]. by destruct a.
Qed.

Lemma open_fds_valid (l : list action) (fds : list Z) (fd : Z) :
  (fd ∈ fds → fd ≠ -1) → fd ∈ open_fds l fds → fd ≠ -1.
Proof.
  revert fds. induction l as [|a l IH]; intros fds Hfds; simpl; [done|].
  apply IH. destruct a; try done.
  all: try (case_bool_decide; [done|]; intros [->|?]%elem_of_cons; auto).
  intros [_ ?]%list_elem_of_filter. auto.
Qed.

Lemma open_fds_from_nil (l : list action) (fd : Z) :
  fd ∈ open_fds l [] → fd ≠ -1.
Proof. apply open_fds_valid. by intros ?%elem_of_nil. Qed.

Lemma elem_of_open_fds_made (l : list action) (a : action) (r fd : Z) :
  (∃ x, a = OpenDev r ∨ a = Listen x r ∨ a = Connect x r ∨ a = Accept x r) →
  fd ∈ open_fds (l ++ [a]) [] ↔ (fd = r ∧ r ≠ -1) ∨ fd ∈ open_fds l [].
Proof.
  intros [x Ha]. rewrite open_fds_app.
  assert (open_fds [a] (open_fds l [])
          = if bool_decide (r = -1) then open_fds l [] else r :: open_fds l [])
    as -> by (by destruct Ha as [->|[->|[->| ->]]]).
  case_bool_decide as Hr.
  - split; [auto|]. by intros [[_ ?]|?].
  - rewrite elem_of_cons. split.
    + intros [->|?]; auto.
    + intros [[-> _]|?]; auto.
Qed.

Lemma elem_of_open_fds_close (l : list action) (c fd : Z) :
  fd ∈ open_fds (l ++ [Close c]) [] ↔ fd ≠ c ∧ fd ∈ open_fds l [].
Proof. rewrite open_fds_app. simpl. by rewrite list_elem_of_filter. Qed.

Lemma elem_of_open_fds_accept (l : list action) (x r fd : Z) :
  fd ∈ open_fds (l ++ [Accept x r]) [] ↔ (fd = r ∧ r ≠ -1) ∨ fd ∈ open_fds l [].
Proof. apply elem_of_open_fds_made. eauto 6. Qed.

Lemma elem_of_open_fds_connect (l : list action) (x r fd : Z) :
  fd ∈ open_fds (l ++ [Connect x r]) [] ↔ (fd = r ∧ r ≠ -1) ∨ fd ∈ open_fds l [].
Proof. apply elem_of_open_fds_made. eauto 6. Qed.

Lemma elem_of_open_fds_listen (l : list action) (x r fd : Z) :
  fd ∈ open_fds (l ++ [Listen x r]) [] ↔ (fd = r ∧ r ≠ -1) ∨ fd ∈ open_fds l [].
Proof. apply elem_of_open_fds_made. eauto 6. Qed.

Lemma open_fds_hello (l : list action) (c : Z) :
  open_fds (l ++ hello c) [] = open_fds l [].
Proof. rewrite open_fds_app. apply open_fds_neutral. by repeat constructor. Qed.

Lemma open_fds_logging_neutral (s : sess) (l : list action) :
  Forall fd_neutral l →
  open_fds (s_log (logging s l)) [] = open_fds (s_log s) [].
Proof.
  intros Hl. unfold logging. simpl. rewrite open_fds_app.
  by apply open_fds_neutral.
Qed.

(** Follow a descriptor through the actions a part has logged. *)
Ltac fds_chase HO :=
  let fd := fresh "fd" in
  let Hfd := fresh "Hfd" in
  intros fd Hfd;
  repeat first
    [ rewrite open_fds_hello in Hfd
    | rewrite elem_of_open_fds_close in Hfd
    | rewrite elem_of_open_fds_accept in Hfd
    | rewrite elem_of_open_fds_connect in Hfd ];
  match type of HO with
  | ∀ x, x ∈ open_fds ?l [] → _ =>
      pose proof (open_fds_from_nil l fd); pose proof (HO fd)
  end;
  rewrite ?elem_of_cons, ?elem_of_nil in *;
  intuition (subst; auto; congruence).

Section Descriptors.
Context `{hid_tables}.
Variable tgt_any : bool.

Lemma fds_body (w : wakeup) :
  part_keeps fds_running fds_inv (loop_body tgt_any w).
Proof.
  apply loop_body_keeps; [by intros s []|..]; intros s [HO HJ].
  - unfold reach_out. destruct s as [st inp c i sc si lg].
    unfold fds_running, fds_inv, held_fds in *. simpl in *.
    destruct tgt_any; repeat case_bool_decide; simpl; repeat split;
      try done; try (fds_chase HO).
  - unfold run_input_event.
    pose proof (input_event_log (s_status s) (input s) (control s) (intr s)
                  (ev_size w) (ev w) (report_wr w)) as Hl.
    destruct (input_event _ _ _ _ _ _ _) as [[ret st] l]. simpl in *.
    assert (fds_running (logging (with_status s st) l)) as Hs'; [|by destruct Hs'].
    split; [|done]. unfold fds_inv. rewrite open_fds_logging_neutral; [done|].
    eapply Forall_impl; [exact Hl|]. by intros a [[f ->]| ->].
  - unfold run_btooth_command.
    pose proof (btooth_command_log (s_status s) (control s) (input s)
                  (ctrl_size w) (ctrl_buf w)) as Hl.
    destruct (btooth_command _ _ _ _ _) as [[ret st] l]. simpl in *.
    assert (fds_running (logging (with_status s st) l)) as Hs'; [|by destruct Hs'].
    split; [|done]. unfold fds_inv. rewrite open_fds_logging_neutral; [done|].
    eapply Forall_impl; [exact Hl|]. by intros a [[f ->]|[->|[->|[e ->]]]].
  - unfold run_btooth_command.
    pose proof (btooth_command_log (s_status s) (intr s) (input s)
                  (intr_size w) (intr_buf w)) as Hl.
    destruct (btooth_command _ _ _ _ _) as [[ret st] l]. simpl in *.
    assert (fds_running (logging (with_status s st) l)) as Hs'; [|by destruct Hs'].
    split; [|done]. unfold fds_inv. rewrite open_fds_logging_neutral; [done|].
    eapply Forall_impl; [exact Hl|]. by intros a [[f ->]|[->|[->|[e ->]]]].
  - unfold accept_control. destruct s as [st inp c i sc si lg].
    unfold fds_running, fds_inv, held_fds in *. simpl in *.
    repeat case_bool_decide; simpl; repeat split;
      try done; try (fds_chase HO).
  - unfold accept_intr_part. destruct s as [st inp c i sc si lg].
    unfold fds_running, fds_inv, held_fds in *. simpl in *.
    repeat case_bool_decide; simpl; repeat split;
      try done; try (fds_chase HO).
Qed.

End Descriptors.

Lemma open_fds_closes_subset (l : list action) (fds : list Z) (fd : Z) :
  Forall (λ a, ∃ x, a = Close x) l → fd ∈ open_fds l fds → fd ∈ fds.
Proof.
  intros Hl. revert fds. induction Hl as [|a l [x ->] _ IH]; intros fds; [done|].
  simpl. intros Hin%IH. by apply list_elem_of_filter in Hin as [_ ?].
Qed.

Lemma open_fds_closed (l : list action) (fds : list Z) (fd : Z) :
  Forall (λ a, ∃ x, a = Close x) l → Close fd ∈ l → fd ∉ open_fds l fds.
Proof.
  intros Hl. revert fds. induction Hl as [|a l [x ->] Hl IH]; intros fds Hin.
  - by apply elem_of_nil in Hin.
  - simpl. apply elem_of_cons in Hin as [Heq|Hin]; [|by apply IH].
    injection Heq as ->. intros Hfd%open_fds_closes_subset; [|done].
    by apply list_elem_of_filter in Hfd as [? _].
Qed.

Lemma elem_of_open_fds_close2 (l : list action) (a b fd : Z) :
  fd ∈ open_fds (l ++ [Close a; Close b]) []
  ↔ fd ≠ b ∧ fd ≠ a ∧ fd ∈ open_fds l [].
Proof. rewrite open_fds_app. simpl. by rewrite !list_elem_of_filter. Qed.

Lemma cleanup_closes `{hid_tables} (s : sess) (fd : Z) :
  fd ∈ held_fds s → fd ≠ -1 → Close fd ∈ cleanup s.
Proof.
  unfold held_fds, cleanup. rewrite !elem_of_cons, elem_of_nil.
  intros Hin Hfd. rewrite !elem_of_app.
  destruct Hin as [->|[->|[->|[->|[->|[]]]]]].
  - left. by left.
  - do 3 right. left. rewrite bool_decide_eq_true_2 by done. by left.
  - do 4 right. rewrite bool_decide_eq_true_2 by done. by left.
  - right. left. rewrite bool_decide_eq_true_2 by done. by left.
  - do 2 right. left. rewrite bool_decide_eq_true_2 by done. by left.
Qed.

(** After a successful [input_open] its descriptor is the one open. *)
Lemma open_fds_input_open (oe : open_env) :
  (input_open oe).1 ≠ -1 →
  open_fds (input_open oe).2 [] = [(input_open oe).1].
Proof.
  intros Hok. destruct (input_open_cases oe) as [[Hopen Heq]|[_ Hfail]]; [|done].
  rewrite Heq. simpl. rewrite bool_decide_eq_false_2; [done|apply Hopen].
Qed.

Lemma session_start_fds `{hid_tables} (oe : open_env) (listen_intr listen_ctrl : Z) :
  (input_open oe).1 ≠ -1 →
  fds_running (session_start oe listen_intr listen_ctrl).
Proof.
  intros Hok. split; [|done]. unfold fds_inv, session_start, held_fds. simpl.
  intros fd. rewrite !elem_of_open_fds_listen.
  rewrite open_fds_app, open_fds_input_open by done.
  rewrite open_fds_neutral by (by repeat constructor).
  rewrite !elem_of_cons, elem_of_nil. intuition auto.
Qed.

(** X18. When [input_open] has succeeded, [session] returns with every
    descriptor closed that it obtained: the device, the two listening
    sockets and whatever it connected or accepted, also when it replaced a
    channel or broke off half-way. *)
Theorem session_closes_descriptors `{hid_tables} (tgt_any : bool) (oe : open_env)
    (listen_intr listen_ctrl : Z) (ws : list wakeup) :
  (input_open oe).1 ≠ -1 →
  (session tgt_any oe listen_intr listen_ctrl ws).1.1 ≠ None →
  open_fds (session tgt_any oe listen_intr listen_ctrl ws).2 [] = [].
Proof.
  intros Hok. rewrite session_cases. cbn zeta.
  rewrite (bool_decide_eq_false_2 ((input_open oe).1 = -1)) by done.
  assert (open_fds ((input_open oe).2
                    ++ (set_leds (input_open oe).1 (leds initial_status)).2) []
          = [(input_open oe).1]) as Hl1.
  { rewrite open_fds_app, open_fds_input_open by done.
    apply open_fds_neutral. by repeat constructor. }
  case_bool_decide as Hli; [|case_bool_decide as Hlc]; cbn [fst snd].
  - intros _. apply elem_of_nil_inv. intros fd.
    rewrite elem_of_open_fds_close, elem_of_open_fds_listen, Hl1.
    rewrite list_elem_of_singleton. intuition auto.
  - intros _. apply elem_of_nil_inv. intros fd.
    rewrite elem_of_open_fds_close2.
    rewrite !elem_of_open_fds_listen, Hl1.
    rewrite list_elem_of_singleton. intuition auto.
  - destruct (main_loop_keeps tgt_any fds_running fds_inv (λ s Hs, proj1 Hs) ws
                (fds_body tgt_any) _
                (session_start_fds oe listen_intr listen_ctrl Hok))
      as [Hend _].
    destruct (main_loop _ _ _) as [[] s]; cbn [fst snd] in *; [|done].
    intros _. apply elem_of_nil_inv. intros fd. rewrite open_fds_app.
    intros Hfd.
    pose proof (open_fds_closes_subset _ _ _ (cleanup_shape s) Hfd) as Hopen.
    apply (open_fds_closed _ _ _ (cleanup_shape s)) in Hfd; [done|].
    apply cleanup_closes; [by apply Hend|by eapply open_fds_from_nil].
Qed.

Lemma session_closes_descriptors_witness :
  open_fds
    (session (H := sample_tables) false (OpenEnv 3 0 EV_VERSION 0 1 0 0) 4 5
       [ Wakeup 1 true false false false false 7 (-1)
           sizeof_input_event (InputEvent EV_KEY 30 1) 10 0 [] 0 []
           (-1) (-1) ]).2 []
  = [].
Proof.
  apply (session_closes_descriptors (H := sample_tables) false
           (OpenEnv 3 0 EV_VERSION 0 1 0 0) 4 5).
  - simpl. lia.
  - simpl. discriminate.
Defined.

(** ** The listening sockets *)

Lemma accepts_on_app (sock : Z) (l1 l2 : list action) :
  accepts_on sock (l1 ++ l2) = (accepts_on sock l1 + accepts_on sock l2)%nat.
Proof. unfold accepts_on. by rewrite List.filter_app, length_app. Qed.

Lemma accepts_on_none (sock : Z) (l : list action) :
  Forall (λ a, is_accept_on sock a = false) l → accepts_on sock l = 0%nat.
Proof.
  unfold accepts_on. induction 1 as [|a l Ha _ IH]; simpl; [done|].
  by rewrite Ha.
Qed.

Lemma accepts_on_hello (sock c : Z) : accepts_on sock (hello c) = 0%nat.
Proof. done. Qed.

Lemma accepts_on_close (sock c : Z) : accepts_on sock [Close c] = 0%nat.
Proof. done. Qed.

Lemma accepts_on_accept (sock x r : Z) :
  accepts_on sock [Accept x r] = if bool_decide (x = sock) then 1%nat else 0%nat.
Proof. unfold accepts_on. simpl. by case_bool_decide. Qed.

Lemma accepts_on_logging_none (sock : Z) (s : sess) (l : list action) :
  Forall (λ a, is_accept_on sock a = false) l →
  accepts_on sock (s_log (logging s l)) = accepts_on sock (s_log s).
Proof.
  intros Hl. unfold logging. simpl.
  rewrite accepts_on_app, (accepts_on_none sock l) by done. lia.
Qed.

Lemma accept_inv_once (lc li : Z) (s : sess) :
  accept_inv lc li s → accept_once lc li s.
Proof. intros (_ & _ & Hc & Hi). split; lia. Qed.

Section AcceptOnce.
Context `{hid_tables}.
Variable tgt_any : bool.
Variables lc li : Z.
Hypothesis sockets_differ : li ≠ lc.
Hypothesis lc_valid : lc ≠ -1.
Hypothesis li_valid : li ≠ -1.

(** A part that leaves the listening sockets alone and accepts nothing
    keeps the invariant. *)
Lemma accept_inv_same (s s' : sess) (l : list action) :
  scontrol s' = scontrol s → sintr s' = sintr s →
  s_log s' = s_log s ++ l → (∀ sock, accepts_on sock l = 0%nat) →
  accept_inv lc li s → accept_inv lc li s'.
Proof.
  intros Hsc Hsi Hlog Hl. unfold accept_inv.
  rewrite Hsc, Hsi, Hlog, !accepts_on_app, !Hl, !Nat.add_0_r. done.
Qed.

Lemma reach_out_listeners (w : wakeup) (s : sess) :
  ∃ l, scontrol (reach_out tgt_any w s).2 = scontrol s
       ∧ sintr (reach_out tgt_any w s).2 = sintr s
       ∧ s_log (reach_out tgt_any w s).2 = s_log s ++ l
       ∧ ∀ sock, accepts_on sock l = 0%nat.
Proof.
  unfold reach_out. destruct s as [st inp c i sc si lg]. simpl.
  destruct tgt_any; repeat case_bool_decide; simpl.
  all: try (exists []; by rewrite app_nil_r).
  all: eexists; split_and!; [done|done|by rewrite <- ?app_assoc|done].
Qed.

Lemma accept_body (w : wakeup) :
  part_keeps (accept_inv lc li) (accept_once lc li) (loop_body tgt_any w).
Proof.
  apply loop_body_keeps; [apply accept_inv_once|..]; intros s Hs.
  - assert (accept_inv lc li (reach_out tgt_any w s).2) as Hs';
      [|split; [by apply accept_inv_once|done]].
    destruct (reach_out_listeners w s) as (l & Hsc & Hsi & Hlog & Hl).
    by apply (accept_inv_same s _ l).
  - unfold run_input_event.
    pose proof (input_event_log (s_status s) (input s) (control s) (intr s)
                  (ev_size w) (ev w) (report_wr w)) as Hl.
    destruct (input_event _ _ _ _ _ _ _) as [[ret st] l]. simpl in *.
    assert (accept_inv lc li (logging (with_status s st) l)) as Hs';
      [|split; [by apply accept_inv_once|done]].
    apply (accept_inv_same s _ l); try done.
    intros sock. apply accepts_on_none.
    eapply Forall_impl; [exact Hl|]. by intros a [[f ->]| ->].
  - unfold run_btooth_command.
    pose proof (btooth_command_log (s_status s) (control s) (input s)
                  (ctrl_size w) (ctrl_buf w)) as Hl.
    destruct (btooth_command _ _ _ _ _) as [[ret st] l]. simpl in *.
    assert (accept_inv lc li (logging (with_status s st) l)) as Hs';
      [|split; [by apply accept_inv_once|done]].
    apply (accept_inv_same s _ l); try done.
    intros sock. apply accepts_on_none.
    eapply Forall_impl; [exact Hl|]. by intros a [[f ->]|[->|[->|[e ->]]]].
  - unfold run_btooth_command.
    pose proof (btooth_command_log (s_status s) (intr s) (input s)
                  (intr_size w) (intr_buf w)) as Hl.
    destruct (btooth_command _ _ _ _ _) as [[ret st] l]. simpl in *.
    assert (accept_inv lc li (logging (with_status s st) l)) as Hs';
      [|split; [by apply accept_inv_once|done]].
    apply (accept_inv_same s _ l); try done.
    intros sock. apply accepts_on_none.
    eapply Forall_impl; [exact Hl|]. by intros a [[f ->]|[->|[->|[e ->]]]].
  - unfold accept_control. destruct s as [st inp c i sc si lg].
    unfold accept_inv, accept_once in *. simpl in *.
    destruct Hs as (Hsc & Hsi & Hc & Hi).
    repeat case_bool_decide; simpl;
      rewrite ?accepts_on_app, ?accepts_on_close, ?accepts_on_accept,
        ?accepts_on_hello;
      destruct Hsc as [-> | ->], Hsi as [-> | ->];
      repeat case_bool_decide; try done; split_and!; try tauto; try lia;
      auto.
  - unfold accept_intr_part. destruct s as [st inp c i sc si lg].
    unfold accept_inv, accept_once in *. simpl in *.
    destruct Hs as (Hsc & Hsi & Hc & Hi).
    repeat case_bool_decide; simpl;
      rewrite ?accepts_on_app, ?accepts_on_close, ?accepts_on_accept,
        ?accepts_on_hello;
      destruct Hsc as [-> | ->], Hsi as [-> | ->];
      repeat case_bool_decide; try done; split_and!; try tauto; try lia;
      auto.
Qed.

End AcceptOnce.

(** X19. [session] calls [l2cap_accept] at most once on each of its two
    listening sockets: after the first call, granted or not, the socket is
    retired or the session over. *)
Theorem listening_sockets_accept_once `{hid_tables} (tgt_any : bool)
    (oe : open_env) (listen_intr listen_ctrl : Z) (ws : list wakeup) :
  listen_intr ≠ listen_ctrl →
  (accepts_on listen_ctrl
     (session tgt_any oe listen_intr listen_ctrl ws).2 ≤ 1)%nat
  ∧ (accepts_on listen_intr
       (session tgt_any oe listen_intr listen_ctrl ws).2 ≤ 1)%nat.
Proof.
  intros Hdiff. rewrite session_cases. cbn zeta.
  assert (∀ sock, accepts_on sock
            (set_leds (input_open oe).1 (leds initial_status)).2 = 0%nat) as Hl
    by done.
  assert (∀ sock, accepts_on sock (input_open oe).2 = 0%nat) as Ho.
  { intros sock. apply accepts_on_none.
    eapply Forall_impl; [apply input_open_log_shape|].
    by intros a [[f ->]|[[fd ->]|[fd [r ->]]]]. }
  case_bool_decide as Hin; [|case_bool_decide as Hli; [|case_bool_decide as Hlc]];
    cbn [fst snd].
  - rewrite !Ho. lia.
  - rewrite !accepts_on_app, !Ho, !Hl. unfold accepts_on. simpl. lia.
  - rewrite !accepts_on_app, !Ho, !Hl. unfold accepts_on. simpl. lia.
  - assert (accept_inv listen_ctrl listen_intr
              (session_start oe listen_intr listen_ctrl)) as Hstart.
    { unfold accept_inv, session_start. cbn [scontrol sintr s_log].
      rewrite !accepts_on_app, !Ho, !Hl.
      rewrite !bool_decide_eq_true_2 by done. unfold accepts_on. simpl. auto. }
    destruct (main_loop_keeps tgt_any _ _ (accept_inv_once listen_ctrl listen_intr)
                ws (accept_body tgt_any listen_ctrl listen_intr Hdiff Hlc Hli)
                _ Hstart) as [[Hc Hi] _].
    destruct (main_loop _ _ _) as [[] s]; cbn [fst snd] in *; [|done].
    rewrite !accepts_on_app.
    rewrite !(accepts_on_none _ (cleanup s)); [lia|..];
      (eapply Forall_impl; [apply cleanup_shape|]; by intros a [x ->]).
Qed.

(** The host connects the control channel and then the interrupt
    channel. *)
Lemma listening_sockets_accept_once_witness :
  (accepts_on 5
     (session (H := sample_tables) true (OpenEnv 3 0 EV_VERSION 0 1 0 0) 4 5
        [ Wakeup 1 false false false true false (-1) (-1)
            0 (InputEvent 0 0 0) 0 0 [] 0 [] 10 (-1);
          Wakeup 1 false false false true true (-1) (-1)
            0 (InputEvent 0 0 0) 0 0 [] 0 [] 12 11 ]).2 ≤ 1)%nat
  ∧ (accepts_on 4
       (session (H := sample_tables) true (OpenEnv 3 0 EV_VERSION 0 1 0 0) 4 5
          [ Wakeup 1 false false false true false (-1) (-1)
              0 (InputEvent 0 0 0) 0 0 [] 0 [] 10 (-1);
            Wakeup 1 false false false true true (-1) (-1)
              0 (InputEvent 0 0 0) 0 0 [] 0 [] 12 11 ]).2 ≤ 1)%nat.
Proof.
  apply (listening_sockets_accept_once (H := sample_tables) true
           (OpenEnv 3 0 EV_VERSION 0 1 0 0) 4 5).
  lia.
Defined.

(** ** A key event between the two channels *)

(** X20. When the control channel is connected and the interrupt channel
    is not yet, a key event is still processed: no connection is attempted,
    the report is written to the descriptor -1, and the loop is left if
    that write fails. *)
Theorem key_event_without_interrupt_channel `{hid_tables} (tgt_any : bool)
    (w : wakeup) (s : sess) :
  control s ≠ -1 → intr s = -1 →
  ev_size w = sizeof_input_event →
  ev_type (ev w) = EV_KEY → ev_code (ev w) < 256 →
  let r := (reach_out tgt_any w ;;; run_input_event w) s in
  s_log r.2 = s_log s ++ WriteBytes (-1) (report_bytes (report (s_status r.2)))
                         :: (if bool_decide (report_wr w ≤ 0)
                             then [Diag SendError] else [])
  ∧ (r.1 = true ↔ report_wr w ≤ 0).
Proof.
  intros Hc Hi Hsize Htype Hcode. unfold then_part, reach_out.
  rewrite (bool_decide_eq_false_2 (control s = -1)) by done.
  unfold run_input_event, input_event. rewrite Hsize, Hi.
  rewrite (bool_decide_eq_false_2 (sizeof_input_event = -1)) by done.
  rewrite (bool_decide_eq_true_2 (sizeof_input_event = sizeof_input_event)) by done.
  rewrite (bool_decide_eq_false_2 (ev_type (ev w) ≠ EV_KEY)) by tauto.
  rewrite (bool_decide_eq_false_2 (256 ≤ ev_code (ev w))) by lia.
  case_bool_decide; simpl; split; done.
Qed.

Lemma key_event_without_interrupt_channel_witness :
  let w := Wakeup 1 true false false false false (-1) (-1)
             sizeof_input_event (InputEvent EV_KEY 30 1) (-1) 0 [] 0 []
             (-1) (-1) in
  let s := Sess (Status 0 (KeyReport 0xa1 0x01 0 0 [0; 0; 0; 0; 0; 0]))
             3 10 (-1) (-1) 4 [] in
  let r := (reach_out true w ;;; run_input_event (H := sample_tables) w) s in
  s_log r.2 = s_log s ++ WriteBytes (-1) (report_bytes (report (s_status r.2)))
                         :: (if bool_decide (report_wr w ≤ 0)
                             then [Diag SendError] else [])
  ∧ (r.1 = true ↔ report_wr w ≤ 0).
Proof.
  apply (key_event_without_interrupt_channel (H := sample_tables) true
           (Wakeup 1 true false false false false (-1) (-1)
              sizeof_input_event (InputEvent EV_KEY 30 1) (-1) 0 [] 0 []
              (-1) (-1))
           (Sess (Status 0 (KeyReport 0xa1 0x01 0 0 [0; 0; 0; 0; 0; 0]))
              3 10 (-1) (-1) 4 [])).
  - simpl. lia.
  - reflexivity.
  - reflexivity.
  - reflexivity.
  - simpl. lia.
Defined.
